(** * GameClient: a shallow embedding of [game.js]

    The browser client of a small multiplayer world.  One [GameClient]
    object holds the canvas size, the camera, the player and avatar
    stores, the set of held movement keys and the connection flag; its
    methods react to key events, WebSocket events and window resizes.

    Conventions of the embedding:
    - a JavaScript number is a rational ([Q]): positions, sizes and the
      camera are finite numbers, [Math.max]/[Math.min] are [Qmax]/[Qmin]
      and numeric [===] is [Qeq];
    - a JavaScript [Map] is an insertion-ordered association list
      ([JsMap]); the [Set] of held keys, which the code never iterates,
      is a [gset string];
    - player and avatar records are replaced as a whole and never
      mutated in place, so a reference to one ([myPlayer]) is its value;
    - a string field that the code only ever tests for truthiness
      carries the empty string for "absent" (both are falsy);
    - what a method writes to the canvas or to the socket is returned
      as a list of [effect]s, in program order; [console.log] is left
      out;
    - indexing the plain object [movementKeys] also finds the members
      it inherits from [Object.prototype] ([movementKeys_at]);
    - a handler that can throw returns a [result]. *)

From Stdlib Require Import QArith Qminmax Lqa ZArith List.
From stdpp Require Import gmap strings.
Import ListNotations.

Local Open Scope string_scope.
Local Open Scope list_scope.

(** ** JavaScript [Map]: insertion-ordered, keyed by string *)

Module JsMap.
Section Ops.
Context {V : Type}.

Definition t := list (string * V).

Definition empty : t := [].

(** [m.get(k)]: [None] stands for [undefined]. *)
Fixpoint get (k : string) (m : t) : option V :=
  match m with
  | [] => None
  | (k', v) :: m' => if String.eqb k k' then Some v else get k m'
  end.

(** [m.set(k, v)]: an existing key keeps its place, a new key goes last. *)
Fixpoint set (k : string) (v : V) (m : t) : t :=
  match m with
  | [] => [(k, v)]
  | (k', v') :: m' =>
      if String.eqb k k' then (k, v) :: m' else (k', v') :: set k v m'
  end.

(** [m.delete(k)]. *)
Fixpoint delete (k : string) (m : t) : t :=
  match m with
  | [] => []
  | (k', v') :: m' =>
      if String.eqb k k' then m' else (k', v') :: delete k m'
  end.

Definition size (m : t) : nat := length m.

End Ops.
Arguments t : clear implicits.
End JsMap.

(** ** Data carried by the protocol *)

(** PlayerRecord.  [avatar], [facing] and [username] are only tested for
    truthiness before use, so [""] also stands for a missing field. *)
Record player := mkPlayer {
  id : string;
  username : string;
  x : Q;
  y : Q;
  facing : string;
  animationFrame : Z;
  avatar : string
}.

(** AvatarDefinition: [frames] maps a direction to its array of image
    sources. *)
Record avatarDef := mkAvatar {
  name : string;
  frames : JsMap.t (list string)
}.

(** An inbound message after [JSON.parse]: one object whose fields
    depend on [action]; a field the sender left out is [None]
    ([undefined]), [success] is its truthiness. *)
Record message := mkMessage {
  action : string;
  success : bool;
  playerId : option string;
  msg_players : option (list (string * player));
  msg_avatars : option (list (string * avatarDef));
  msg_player : option player;
  msg_avatar : option avatarDef
}.

(** ** What the client does to the outside world *)

(** What [this.movementKeys[key]] can evaluate to.  The table is a
    plain object, so besides the direction strings of its own four
    keys it answers for every member it inherits from
    [Object.prototype]: a function, or the prototype object itself for
    [__proto__].  All of these are truthy. *)
Inductive tableValue :=
| Direction (d : string)
| Inherited (member : string).

(** The message objects handed to [JSON.stringify] and [ws.send];
    [Move] carries whatever value [startMovement] was given. *)
Inductive intent :=
| JoinGame (user : string)
| Move (direction : tableValue)
| Stop.

(** Calls on the 2D context.  [DrawAvatarImage] is the five-argument
    [drawImage] of an avatar frame, [DrawWorldImage] the nine-argument
    one of the world map. *)
Inductive drawcall :=
| ClearRect (x0 y0 w h : Q)
| DrawWorldImage (sx sy sw sh dx dy dw dh : Q)
| DrawAvatarImage (src : string) (dx dy dw dh : Q)
| StrokeText (text : string) (tx ty : Q)
| FillText (text : string) (tx ty : Q).

Inductive effect :=
| Canvas (c : drawcall)
  (** [new Image()] with [src] set; [onload] is what its handler draws
      once the browser has decoded the image. *)
| LoadImage (src : string) (onload : list drawcall)
| Send (i : intent).

(** The effects of the avatar pass are image loads only. *)
Definition is_load (e : effect) : Prop :=
  match e with LoadImage _ _ => True | _ => False end.

(** ** The client object *)

Record GameClient := mkClient {
  canvas_width : Q;
  canvas_height : Q;
  worldImage : bool;
  worldWidth : Q;
  worldHeight : Q;
  connected : bool;
  myPlayerId : option string;
  myPlayer : option player;
  players : JsMap.t player;
  avatars : JsMap.t avatarDef;
  keysPressed : gset string;
  viewportX : Q;
  viewportY : Q;
  avatarSize : Q
}.

(** The object the constructor builds, before [init]; the canvas size is
    the one [setupCanvas] is about to store. *)
Definition constructor (innerWidth innerHeight : Q) : GameClient :=
  {| canvas_width := innerWidth;
     canvas_height := innerHeight;
     worldImage := false;
     worldWidth := 2048;
     worldHeight := 2048;
     connected := false;
     myPlayerId := None;
     myPlayer := None;
     players := JsMap.empty;
     avatars := JsMap.empty;
     keysPressed := ∅;
     viewportX := 0;
     viewportY := 0;
     avatarSize := 32 |}.

(** The own properties of the [movementKeys] object literal. *)
Definition movementKeys (key : string) : option string :=
  if String.eqb key "ArrowUp" then Some "up"
  else if String.eqb key "ArrowDown" then Some "down"
  else if String.eqb key "ArrowLeft" then Some "left"
  else if String.eqb key "ArrowRight" then Some "right"
  else None.

(** The names a plain object inherits from [Object.prototype] in a
    browser. *)
Definition Object_prototype : list string :=
  [ "constructor"; "hasOwnProperty"; "isPrototypeOf"; "propertyIsEnumerable";
    "toLocaleString"; "toString"; "valueOf"; "__proto__";
    "__defineGetter__"; "__defineSetter__";
    "__lookupGetter__"; "__lookupSetter__" ].

Definition inherited (key : string) : bool :=
  existsb (String.eqb key) Object_prototype.

(** [this.movementKeys[key]]: an own property first, then the prototype;
    [None] is [undefined]. *)
Definition movementKeys_at (key : string) : option tableValue :=
  match movementKeys key with
  | Some d => Some (Direction d)
  | None => if inherited key then Some (Inherited key) else None
  end.

(** Field updates, one per assignment the methods make. *)
Definition set_viewport (vx vy : Q) (s : GameClient) : GameClient :=
  {| canvas_width := canvas_width s; canvas_height := canvas_height s;
     worldImage := worldImage s;
     worldWidth := worldWidth s; worldHeight := worldHeight s;
     connected := connected s;
     myPlayerId := myPlayerId s; myPlayer := myPlayer s;
     players := players s; avatars := avatars s;
     keysPressed := keysPressed s;
     viewportX := vx; viewportY := vy;
     avatarSize := avatarSize s |}.

Definition set_canvas (w h : Q) (s : GameClient) : GameClient :=
  {| canvas_width := w; canvas_height := h;
     worldImage := worldImage s;
     worldWidth := worldWidth s; worldHeight := worldHeight s;
     connected := connected s;
     myPlayerId := myPlayerId s; myPlayer := myPlayer s;
     players := players s; avatars := avatars s;
     keysPressed := keysPressed s;
     viewportX := viewportX s; viewportY := viewportY s;
     avatarSize := avatarSize s |}.

Definition set_worldImage (b : bool) (s : GameClient) : GameClient :=
  {| canvas_width := canvas_width s; canvas_height := canvas_height s;
     worldImage := b;
     worldWidth := worldWidth s; worldHeight := worldHeight s;
     connected := connected s;
     myPlayerId := myPlayerId s; myPlayer := myPlayer s;
     players := players s; avatars := avatars s;
     keysPressed := keysPressed s;
     viewportX := viewportX s; viewportY := viewportY s;
     avatarSize := avatarSize s |}.

Definition set_connected (b : bool) (s : GameClient) : GameClient :=
  {| canvas_width := canvas_width s; canvas_height := canvas_height s;
     worldImage := worldImage s;
     worldWidth := worldWidth s; worldHeight := worldHeight s;
     connected := b;
     myPlayerId := myPlayerId s; myPlayer := myPlayer s;
     players := players s; avatars := avatars s;
     keysPressed := keysPressed s;
     viewportX := viewportX s; viewportY := viewportY s;
     avatarSize := avatarSize s |}.

Definition set_myPlayerId (i : option string) (s : GameClient) : GameClient :=
  {| canvas_width := canvas_width s; canvas_height := canvas_height s;
     worldImage := worldImage s;
     worldWidth := worldWidth s; worldHeight := worldHeight s;
     connected := connected s;
     myPlayerId := i; myPlayer := myPlayer s;
     players := players s; avatars := avatars s;
     keysPressed := keysPressed s;
     viewportX := viewportX s; viewportY := viewportY s;
     avatarSize := avatarSize s |}.

Definition set_myPlayer (p : option player) (s : GameClient) : GameClient :=
  {| canvas_width := canvas_width s; canvas_height := canvas_height s;
     worldImage := worldImage s;
     worldWidth := worldWidth s; worldHeight := worldHeight s;
     connected := connected s;
     myPlayerId := myPlayerId s; myPlayer := p;
     players := players s; avatars := avatars s;
     keysPressed := keysPressed s;
     viewportX := viewportX s; viewportY := viewportY s;
     avatarSize := avatarSize s |}.

Definition set_players (m : JsMap.t player) (s : GameClient) : GameClient :=
  {| canvas_width := canvas_width s; canvas_height := canvas_height s;
     worldImage := worldImage s;
     worldWidth := worldWidth s; worldHeight := worldHeight s;
     connected := connected s;
     myPlayerId := myPlayerId s; myPlayer := myPlayer s;
     players := m; avatars := avatars s;
     keysPressed := keysPressed s;
     viewportX := viewportX s; viewportY := viewportY s;
     avatarSize := avatarSize s |}.

Definition set_avatars (m : JsMap.t avatarDef) (s : GameClient) : GameClient :=
  {| canvas_width := canvas_width s; canvas_height := canvas_height s;
     worldImage := worldImage s;
     worldWidth := worldWidth s; worldHeight := worldHeight s;
     connected := connected s;
     myPlayerId := myPlayerId s; myPlayer := myPlayer s;
     players := players s; avatars := m;
     keysPressed := keysPressed s;
     viewportX := viewportX s; viewportY := viewportY s;
     avatarSize := avatarSize s |}.

Definition set_keysPressed (k : gset string) (s : GameClient) : GameClient :=
  {| canvas_width := canvas_width s; canvas_height := canvas_height s;
     worldImage := worldImage s;
     worldWidth := worldWidth s; worldHeight := worldHeight s;
     connected := connected s;
     myPlayerId := myPlayerId s; myPlayer := myPlayer s;
     players := players s; avatars := avatars s;
     keysPressed := k;
     viewportX := viewportX s; viewportY := viewportY s;
     avatarSize := avatarSize s |}.

(** ** Methods as computations over the client

    A method reads and assigns fields of [this], writes to the canvas
    and the socket, and may throw.  What it had assigned and written
    before a throw stays assigned and written, so [Throw] carries the
    state and the output too. *)

Inductive exn :=
| TypeError (what : string).

Inductive result (A : Type) :=
| Ok (a : A) (s : GameClient) (out : list effect)
| Throw (e : exn) (s : GameClient) (out : list effect).
Arguments Ok {A} a s out.
Arguments Throw {A} e s out.

Definition M (A : Type) : Type := GameClient -> result A.

#[global] Instance M_ret : MRet M := fun A a s => Ok a s [].

#[global] Instance M_bind : MBind M := fun A B f m s =>
  match m s with
  | Ok a s1 out1 =>
      match f a s1 with
      | Ok b s2 out2 => Ok b s2 (out1 ++ out2)
      | Throw e s2 out2 => Throw e s2 (out1 ++ out2)
      end
  | Throw e s1 out1 => Throw e s1 out1
  end.

#[global] Instance M_throw : MThrow exn M := fun A e s => Throw e s [].

Definition this : M GameClient := fun s => Ok s s [].

Definition assign (f : GameClient -> GameClient) : M unit :=
  fun s => Ok tt (f s) [].

Definition emit (e : effect) : M unit := fun s => Ok tt s [e].

(** The state and the output a computation ends with, thrown or not. *)
Definition final {A} (r : result A) : GameClient :=
  match r with Ok _ s _ => s | Throw _ s _ => s end.

Definition output {A} (r : result A) : list effect :=
  match r with Ok _ _ out => out | Throw _ _ out => out end.

(** [for (const a of l) body(a)]. *)
Fixpoint forEach {A} (l : list A) (body : A -> M unit) : M unit :=
  match l with
  | [] => mret tt
  | a :: l' => body a ;; forEach l' body
  end.

(** Reading a property of [o] where [o] may be [undefined]. *)
Definition field {A} (what : string) (o : option A) : M A :=
  match o with
  | Some a => mret a
  | None => mthrow (TypeError what)
  end.

(** [Object.entries(o)] throws on [undefined]. *)
Definition Object_entries {A} (o : option (list (string * A)))
  : M (list (string * A)) :=
  field "Cannot convert undefined or null to object" o.

(** Truthiness of a string. *)
Definition truthy (str : string) : bool := negb (String.eqb str "").

(** [a[i]] on an array: [undefined] outside [0 .. length-1]. *)
Definition index {A} (a : list A) (i : Z) : option A :=
  if (i <? 0)%Z then None else nth_error a (Z.to_nat i).

(** ** Camera *)

Section Viewport.
Local Open Scope Q_scope.

(** [updateViewport]: centre on the local player, clamp to the world. *)
Definition updateViewport (s : GameClient) : GameClient :=
  match myPlayer s with
  | None => s
  | Some me =>
      let centerX := x me - canvas_width s / 2 in
      let centerY := y me - canvas_height s / 2 in
      set_viewport
        (Qmax 0 (Qmin centerX (worldWidth s - canvas_width s)))
        (Qmax 0 (Qmin centerY (worldHeight s - canvas_height s)))
        s
  end.

(** ** Drawing *)

(** [drawUsernameLabel]: an outline pass, then a fill pass. *)
Definition drawUsernameLabel (s : GameClient) (uname : string) (lx ly : Q)
  : list drawcall :=
  if truthy uname then
    [ StrokeText uname lx (ly - avatarSize s / 2 - 5);
      FillText uname lx (ly - avatarSize s / 2 - 5) ]
  else [].

(** The test of [drawAvatar] that skips an avatar off the screen. *)
Definition offscreen (s : GameClient) (screenX screenY : Q) : bool :=
  if Qlt_le_dec screenX (- avatarSize s) then true
  else if Qlt_le_dec (canvas_width s + avatarSize s) screenX then true
  else if Qlt_le_dec screenY (- avatarSize s) then true
  else if Qlt_le_dec (canvas_height s + avatarSize s) screenY then true
  else false.

(** The two constants [drawAvatar] derives from the record:
    [player.facing || 'south'] and [player.animationFrame || 0]. *)
Definition direction (p : player) : string :=
  if truthy (facing p) then facing p else "south".

Definition frameIndex (p : player) : Z :=
  if (animationFrame p =? 0)%Z then 0%Z else animationFrame p.

Definition drawAvatar (p : player) : M unit :=
  s ← this;
  if negb (truthy (avatar p)) then mret tt else
  match JsMap.get (avatar p) (avatars s) with
  | None => mret tt
  | Some avatarData =>
      let screenX := x p - viewportX s in
      let screenY := y p - viewportY s in
      if offscreen s screenX screenY then mret tt else
      match JsMap.get (direction p) (frames avatarData) with
      | None => mret tt
      | Some fs =>
          match index fs (frameIndex p) with
          | None => mret tt
          | Some src =>
              if negb (truthy src) then mret tt else
              emit (LoadImage src
                      (DrawAvatarImage src
                         (screenX - avatarSize s / 2)
                         (screenY - avatarSize s / 2)
                         (avatarSize s) (avatarSize s)
                       :: drawUsernameLabel s (username p) screenX screenY))
          end
      end
  end.


Definition drawAvatars : M unit :=
  s ← this;
  forEach (players s) (fun entry => drawAvatar (snd entry)).

(** The source rectangle of the world image: (startX, startY, endX, endY). *)
Definition worldSource (s : GameClient) : Q * Q * Q * Q :=
  let startX := Qmax 0 (viewportX s) in
  let startY := Qmax 0 (viewportY s) in
  let endX := Qmin (worldWidth s) (viewportX s + canvas_width s) in
  let endY := Qmin (worldHeight s) (viewportY s + canvas_height s) in
  (startX, startY, endX, endY).

Definition drawWorld : M unit :=
  s ← this;
  if negb (worldImage s) then mret tt else
  emit (Canvas (ClearRect 0 0 (canvas_width s) (canvas_height s)));;
  assign updateViewport;;
  s ← this;
  let '(startX, startY, endX, endY) := worldSource s in
  let sourceWidth := endX - startX in
  let sourceHeight := endY - startY in
  emit (Canvas (DrawWorldImage startX startY sourceWidth sourceHeight
                               0 0 sourceWidth sourceHeight));;
  drawAvatars.

End Viewport.

(** ** Connection and movement intents *)

Definition joinGame : M unit :=
  s ← this;
  if negb (connected s) then mret tt else
  emit (Send (JoinGame "jasleen")).

Definition startMovement (direction : tableValue) : M unit :=
  s ← this;
  if negb (connected s) then mret tt else
  emit (Send (Move direction)).

Definition stopMovement : M unit :=
  s ← this;
  if negb (connected s) then mret tt else
  if Nat.eqb (size (keysPressed s)) 0 then emit (Send Stop) else mret tt.

Definition keydown (key : string) : M unit :=
  s ← this;
  match movementKeys_at key with
  | Some direction =>
      if bool_decide (key ∈ keysPressed s) then mret tt else
      assign (fun s => set_keysPressed ({[key]} ∪ keysPressed s) s);;
      startMovement direction
  | None => mret tt
  end.

Definition keyup (key : string) : M unit :=
  match movementKeys_at key with
  | Some _ =>
      assign (fun s => set_keysPressed (keysPressed s ∖ {[key]}) s);;
      stopMovement
  | None => mret tt
  end.

Definition onopen : M unit :=
  assign (set_connected true);;
  joinGame.

Definition onclose : M unit :=
  assign (set_connected false).

Definition onerror : M unit :=
  mret tt.

(** ** Inbound messages *)

Definition upsertEntry (entry : string * player) : M unit :=
  let '(playerId', playerData) := entry in
  assign (fun s => set_players (JsMap.set playerId' playerData (players s)) s);;
  s ← this;
  if bool_decide (Some playerId' = myPlayerId s)
  then assign (set_myPlayer (Some playerData))
  else mret tt.

(** The client after one iteration of that loop. *)
Definition upserted (s : GameClient) (entry : string * player) : GameClient :=
  let s1 := set_players (JsMap.set (fst entry) (snd entry) (players s)) s in
  if bool_decide (Some (fst entry) = myPlayerId s1)
  then set_myPlayer (Some (snd entry)) s1
  else s1.

Definition handleJoinGameResponse (m : message) : M unit :=
  assign (set_myPlayerId (playerId m));;
  ps ← Object_entries (msg_players m);
  forEach ps upsertEntry;;
  avs ← Object_entries (msg_avatars m);
  forEach avs (fun '(avatarName, avatarData) =>
    assign (fun s => set_avatars (JsMap.set avatarName avatarData (avatars s)) s));;
  drawWorld.

Definition handlePlayersMoved (m : message) : M unit :=
  ps ← Object_entries (msg_players m);
  forEach ps upsertEntry;;
  drawWorld.

Definition handlePlayerJoined (m : message) : M unit :=
  p ← field "Cannot read properties of undefined (reading 'id')" (msg_player m);
  assign (fun s => set_players (JsMap.set (id p) p (players s)) s);;
  a ← field "Cannot read properties of undefined (reading 'name')" (msg_avatar m);
  assign (fun s => set_avatars (JsMap.set (name a) a (avatars s)) s).

Definition handlePlayerLeft (m : message) : M unit :=
  match playerId m with
  | Some pid => assign (fun s => set_players (JsMap.delete pid (players s)) s)
  | None => mret tt
  end.

Definition handleServerMessage (m : message) : M unit :=
  if String.eqb (action m) "join_game" then
    if success m then handleJoinGameResponse m else mret tt
  else if String.eqb (action m) "players_moved" then handlePlayersMoved m
  else if String.eqb (action m) "player_joined" then handlePlayerJoined m
  else if String.eqb (action m) "player_left" then handlePlayerLeft m
  else mret tt.

(** ** The event loop *)

Inductive event :=
| KeyDown (code : string)
| KeyUp (code : string)
| WsOpen
| WsMessage (m : message)
| WsClose
| WsError
| Resize (innerWidth innerHeight : Q)
| WorldImageLoaded.

Definition handle (e : event) : M unit :=
  match e with
  | KeyDown code => keydown code
  | KeyUp code => keyup code
  | WsOpen => onopen
  | WsMessage m => handleServerMessage m
  | WsClose => onclose
  | WsError => onerror
  | Resize w h => assign (set_canvas w h);; drawWorld
  | WorldImageLoaded => drawWorld
  end.

(** [init]: the canvas is sized, [worldImage] is created and the
    listeners are installed; nothing is drawn or sent yet. *)
Definition init (innerWidth innerHeight : Q) : GameClient :=
  set_worldImage true (constructor innerWidth innerHeight).

(** One turn of the event loop.  An exception that escapes a handler is
    reported by the browser and the loop goes on from the state the
    handler left. *)
Definition dispatch (s : GameClient) (e : event) : GameClient * list effect :=
  let r := handle e s in (final r, output r).

(** A run of the loop: the state and the output after each turn. *)
Fixpoint run (s : GameClient) (evs : list event)
  : list (GameClient * list effect) :=
  match evs with
  | [] => []
  | e :: evs' => dispatch s e :: run (fst (dispatch s e)) evs'
  end.

(** ** Vocabulary for the input properties *)

(** A computation that leaves the set of held keys alone and sends no
    [stop], whether it returns or throws. *)
Definition quiet {A} (m : M A) : Prop :=
  forall s,
    keysPressed (final (m s)) = keysPressed s /\
    ~ In (Send Stop) (output (m s)).

(** A computation that keeps an invariant [I] of the client and writes
    only effects satisfying [P], whether it returns or throws. *)
Definition keeps {A} (I : GameClient -> Prop) (P : effect -> Prop) (m : M A)
  : Prop :=
  forall s, I s -> I (final (m s)) /\ List.Forall P (output (m s)).

Definition not_send (e : effect) : Prop :=
  match e with Send _ => False | _ => True end.

Definition any_effect (e : effect) : Prop := True.

(** The client after a list of events, each handled in its own turn. *)
Definition after (s : GameClient) (evs : list event) : GameClient :=
  fold_left (fun s e => fst (dispatch s e)) evs s.

(** Both stores hold each key once, as a [Map] does. *)
Definition stores_wf (s : GameClient) : Prop :=
  NoDup (map fst (players s)) /\ NoDup (map fst (avatars s)).

(** A resize to a window of non-negative width and height; every other
    event qualifies. *)
Definition sized (e : event) : Prop :=
  match e with
  | Resize w h => (0 <= w /\ 0 <= h)%Q
  | _ => True
  end.

(** What holds of the canvas and the camera between turns: the canvas
    has a non-negative size, the world is the 2048 x 2048 one, and
    while there is no local player the camera is where the constructor
    put it. *)
Definition camera_ok (s : GameClient) : Prop :=
  (0 <= canvas_width s /\ 0 <= canvas_height s /\
   worldWidth s = 2048 /\ worldHeight s = 2048 /\
   (myPlayer s = None -> viewportX s == 0 /\ viewportY s == 0))%Q.

(** A world [drawImage] whose source rectangle lies in a [W] x [H]
    image; any other effect qualifies. *)
Definition world_draw_within (W H : Q) (e : effect) : Prop :=
  match e with
  | Canvas (DrawWorldImage sx sy sw sh _ _ _ _) =>
      (0 <= sx /\ 0 <= sw /\ sx + sw <= W /\
       0 <= sy /\ 0 <= sh /\ sy + sh <= H)%Q
  | _ => True
  end.

(** A key event whose code is not a name inherited from
    [Object.prototype], as the codes of a keyboard are; every other
    event qualifies. *)
Definition own_code (e : event) : Prop :=
  match e with
  | KeyDown code | KeyUp code => inherited code = false
  | _ => True
  end.

(** A [player_left] message that names [pid]. *)
Definition departure_of (pid : string) (e : event) : Prop :=
  match e with
  | WsMessage m => action m = "player_left" /\ playerId m = Some pid
  | _ => False
  end.

(** The store after the loop [for (const [k, v] of entries) m.set(k, v)]. *)
Definition set_all {V} (entries : list (string * V)) (m : JsMap.t V)
  : JsMap.t V :=
  fold_left (fun m e => JsMap.set (fst e) (snd e) m) entries m.

(** ** A session to compute with

    The scenario of the design notes: an 800 x 600 canvas on the
    2048 x 2048 world, local player A at (100, 100), B at (900, 900). *)

Definition knight : avatarDef :=
  {| name := "knight";
     frames := [ ("north", ["n0.png"; "n1.png"]);
                 ("south", ["s0.png"; "s1.png"]);
                 ("east", ["e0.png"; "e1.png"]) ] |}.

Definition playerA : player :=
  {| id := "A"; username := "alice"; x := 100; y := 100;
     facing := "south"; animationFrame := 1; avatar := "knight" |}.

Definition playerB : player :=
  {| id := "B"; username := "bob"; x := 900; y := 900;
     facing := "east"; animationFrame := 1; avatar := "knight" |}.

Definition joined : GameClient :=
  set_avatars [("knight", knight)]
    (set_players [("A", playerA); ("B", playerB)]
       (set_myPlayer (Some playerA)
          (set_myPlayerId (Some "A")
             (set_connected true (init 800 600))))).

(** Messages for that session. *)

(** E is not in the store of [joined]. *)
Definition playerE : player :=
  {| id := "E"; username := "erin"; x := 120; y := 80;
     facing := "north"; animationFrame := 0; avatar := "knight" |}.

Definition movedE : message :=
  {| action := "players_moved"; success := false; playerId := None;
     msg_players := Some [("E", playerE)]; msg_avatars := None;
     msg_player := None; msg_avatar := None |}.

Definition joinedE : message :=
  {| action := "player_joined"; success := false; playerId := None;
     msg_players := None; msg_avatars := None;
     msg_player := Some playerE; msg_avatar := Some knight |}.

Definition leftB : message :=
  {| action := "player_left"; success := false; playerId := Some "B";
     msg_players := None; msg_avatars := None;
     msg_player := None; msg_avatar := None |}.

Definition leftA : message :=
  {| action := "player_left"; success := false; playerId := Some "A";
     msg_players := None; msg_avatars := None;
     msg_player := None; msg_avatar := None |}.

Definition leftE : message :=
  {| action := "player_left"; success := false; playerId := Some "E";
     msg_players := None; msg_avatars := None;
     msg_player := None; msg_avatar := None |}.

(** The local player A again, now at (500, 500). *)
Definition playerA' : player :=
  {| id := "A"; username := "alice"; x := 500; y := 500;
     facing := "east"; animationFrame := 0; avatar := "knight" |}.

Definition joinedA' : message :=
  {| action := "player_joined"; success := false; playerId := None;
     msg_players := None; msg_avatars := None;
     msg_player := Some playerA'; msg_avatar := Some knight |}.

Definition movedA' : message :=
  {| action := "players_moved"; success := false; playerId := None;
     msg_players := Some [("A", playerA')]; msg_avatars := None;
     msg_player := None; msg_avatar := None |}.

(** The server's answer to the join request that leads to [joined]. *)
Definition joinResult : message :=
  {| action := "join_game"; success := true; playerId := Some "A";
     msg_players := Some [("A", playerA); ("B", playerB)];
     msg_avatars := Some [("knight", knight)];
     msg_player := None; msg_avatar := None |}.

(** On screen, but its avatar was never announced. *)
Definition playerC : player :=
  {| id := "C"; username := "carol"; x := 400; y := 300;
     facing := "south"; animationFrame := 0; avatar := "ghost" |}.


(** On screen, with a frame index one past the two frames it has. *)
Definition playerD : player :=
  {| id := "D"; username := "dave"; x := 400; y := 300;
     facing := "south"; animationFrame := 2; avatar := "knight" |}.

(** * Properties *)

(** ** The stores *)

Section JsMapFacts.
Context {V : Type}.
Implicit Types (k : string) (v : V) (m : JsMap.t V).

Lemma get_set_eq k v m : JsMap.get k (JsMap.set k v m) = Some v.
Proof.
  induction m as [|[k' v'] m IH]; cbn.
  - now rewrite String.eqb_refl.
  - destruct (String.eqb k k') eqn:E; cbn; rewrite ?String.eqb_refl, ?E; auto.
Qed.

Lemma get_set_ne k k' v m :
  k <> k' -> JsMap.get k' (JsMap.set k v m) = JsMap.get k' m.
Proof.
  intros Hne.
  assert (Hk : String.eqb k' k = false) by (apply String.eqb_neq; congruence).
  induction m as [|[k0 v0] m IH]; cbn.
  - now rewrite Hk.
  - destruct (String.eqb k k0) eqn:E; cbn.
    + apply String.eqb_eq in E. subst k0. now rewrite Hk.
    + now rewrite IH.
Qed.

(** Setting the same binding again changes nothing, not even the order. *)
Lemma set_set k v m : JsMap.set k v (JsMap.set k v m) = JsMap.set k v m.
Proof.
  induction m as [|[k' v'] m IH]; cbn.
  - now rewrite String.eqb_refl.
  - destruct (String.eqb k k') eqn:E; cbn; rewrite ?String.eqb_refl, ?E.
    + reflexivity.
    + now rewrite IH.
Qed.

End JsMapFacts.

(** ** Running a method *)

Lemma bind_Ok {A B} (m : M A) (f : A -> M B) s a s1 out1 :
  m s = Ok a s1 out1 ->
  (m ≫= f) s =
    match f a s1 with
    | Ok b s2 out2 => Ok b s2 (out1 ++ out2)
    | Throw e s2 out2 => Throw e s2 (out1 ++ out2)
    end.
Proof. intros H. unfold mbind, M_bind. now rewrite H. Qed.

(** Unfolds the plumbing of [M] in the goal. *)
Ltac run_M :=
  unfold mbind, M_bind, mret, M_ret, mthrow, M_throw, this, assign, emit;
  cbn [final output app].

(** ** The avatar pass *)

Lemma drawAvatar_total (p : player) (s : GameClient) :
  exists out, drawAvatar p s = Ok tt s out /\ Forall is_load out.
Proof.
  unfold drawAvatar. run_M.
  destruct (negb (truthy (avatar p))); [eauto|].
  destruct (JsMap.get (avatar p) (avatars s)) as [av|]; [|eauto].
  destruct (offscreen _ _ _); [eauto|].
  destruct (JsMap.get _ (frames av)) as [fs|]; [|eauto].
  destruct (index fs _) as [src|]; [|eauto].
  destruct (negb (truthy src)); [eauto|].
  eexists. split; [reflexivity|]. repeat constructor.
Qed.

Lemma forEach_drawAvatar_total (l : list (string * player)) (s : GameClient) :
  exists out,
    forEach l (fun entry => drawAvatar (snd entry)) s = Ok tt s out /\
    Forall is_load out.
Proof.
  induction l as [|[k p] l IH]; cbn [forEach].
  - exists []. split; [reflexivity | constructor].
  - destruct (drawAvatar_total p s) as (o1 & E1 & F1).
    destruct IH as (o2 & E2 & F2).
    exists (o1 ++ o2). split.
    + erewrite bind_Ok by exact E1. now rewrite E2.
    + apply Forall_app; auto.
Qed.

Lemma drawAvatars_total (s : GameClient) :
  exists out, drawAvatars s = Ok tt s out /\ Forall is_load out.
Proof.
  destruct (forEach_drawAvatar_total (players s) s) as (o & E & F).
  exists o. split; [|exact F].
  unfold drawAvatars. erewrite bind_Ok by reflexivity. now rewrite E.
Qed.

(** ** The world pass *)

Section DrawWorldFacts.
Local Open Scope Q_scope.

(** What a redraw is: the canvas is cleared, the camera is moved, the
    visible part of the world is drawn, and the avatar pass follows. *)
Lemma drawWorld_redraw (s : GameClient) :
  worldImage s = true ->
  exists avs,
    Forall is_load avs /\
    drawWorld s =
      Ok tt (updateViewport s)
        (Canvas (ClearRect 0 0 (canvas_width s) (canvas_height s))
         :: Canvas
              (let '(startX, startY, endX, endY) :=
                 worldSource (updateViewport s) in
               DrawWorldImage startX startY (endX - startX) (endY - startY)
                              0 0 (endX - startX) (endY - startY))
         :: avs).
Proof.
  intros Himg.
  destruct (drawAvatars_total (updateViewport s)) as (avs & E & F).
  exists avs. split; [exact F|].
  unfold drawWorld. run_M. rewrite Himg. cbn [negb].
  unfold worldSource. rewrite E. reflexivity.
Qed.

Lemma drawWorld_no_image (s : GameClient) :
  worldImage s = false -> drawWorld s = Ok tt s [].
Proof. intros Himg. unfold drawWorld. run_M. now rewrite Himg. Qed.

Lemma drawWorld_total (s : GameClient) :
  exists out,
    drawWorld s = Ok tt (if worldImage s then updateViewport s else s) out.
Proof.
  destruct (worldImage s) eqn:Himg.
  - destruct (drawWorld_redraw s Himg) as (avs & _ & E). eauto.
  - rewrite drawWorld_no_image by exact Himg. eauto.
Qed.

Lemma updateViewport_frame (s : GameClient) :
  let s' := updateViewport s in
  canvas_width s' = canvas_width s /\ canvas_height s' = canvas_height s /\
  worldWidth s' = worldWidth s /\ worldHeight s' = worldHeight s /\
  connected s' = connected s /\ myPlayerId s' = myPlayerId s /\
  myPlayer s' = myPlayer s /\ players s' = players s /\
  avatars s' = avatars s /\ keysPressed s' = keysPressed s.
Proof.
  cbv zeta. unfold updateViewport.
  destruct (myPlayer s) eqn:E; cbn; rewrite ?E; repeat split; reflexivity.
Qed.

Lemma clamp_within (c hi : Q) :
  0 <= hi -> 0 <= Qmax 0 (Qmin c hi) /\ Qmax 0 (Qmin c hi) <= hi.
Proof.
  intros Hhi. split.
  - apply Q.le_max_l.
  - apply Q.max_lub; [exact Hhi | apply Q.le_min_r].
Qed.

Lemma clamp_pinned (c hi : Q) :
  hi < 0 -> Qmax 0 (Qmin c hi) == 0.
Proof.
  intros Hhi. apply Q.max_l.
  apply Qle_trans with hi; [apply Q.le_min_r | apply Qlt_le_weak, Hhi].
Qed.

(** C1.  With a local player at any position, [updateViewport] leaves
    the origin in [0, world - canvas] on each axis where the canvas is
    no larger than the world, and at exactly 0 on each axis where the
    canvas is larger than the world. *)
Theorem updateViewport_clamped (s : GameClient) (me : player) :
  myPlayer s = Some me ->
  let s' := updateViewport s in
  (canvas_width s <= worldWidth s ->
     0 <= viewportX s' <= worldWidth s - canvas_width s) /\
  (canvas_height s <= worldHeight s ->
     0 <= viewportY s' <= worldHeight s - canvas_height s) /\
  (worldWidth s < canvas_width s -> viewportX s' == 0) /\
  (worldHeight s < canvas_height s -> viewportY s' == 0).
Proof.
  intros Hme. unfold updateViewport. rewrite Hme. cbn.
  split; [| split; [| split]]; intros Hsize.
  - apply clamp_within. lra.
  - apply clamp_within. lra.
  - apply clamp_pinned. lra.
  - apply clamp_pinned. lra.
Qed.

End DrawWorldFacts.

(** C1, on the scenario: the camera centred on A would start at
    (-300, -200) and is clamped to (0, 0). *)
Lemma updateViewport_clamped_witness :
  myPlayer joined = Some playerA /\
  ((canvas_width joined <= worldWidth joined ->
      0 <= viewportX (updateViewport joined)
        <= worldWidth joined - canvas_width joined) /\
   (canvas_height joined <= worldHeight joined ->
      0 <= viewportY (updateViewport joined)
        <= worldHeight joined - canvas_height joined) /\
   (worldWidth joined < canvas_width joined ->
      viewportX (updateViewport joined) == 0) /\
   (worldHeight joined < canvas_height joined ->
      viewportY (updateViewport joined) == 0))%Q.
Proof.
  split; [reflexivity|].
  apply (updateViewport_clamped joined playerA). reflexivity.
Defined.

Section WorldSourceFacts.
Local Open Scope Q_scope.

(** Names every [Qmax] and [Qmin] with its defining cases, then leaves
    the linear problem to [lra]. *)
Ltac minmax_cases :=
  repeat match goal with
  | |- context [Qmax ?a ?b] =>
      let m := fresh "m" in
      pose proof (Q.max_spec a b); set (m := Qmax a b) in *; clearbody m
  | |- context [Qmin ?a ?b] =>
      let m := fresh "m" in
      pose proof (Q.min_spec a b); set (m := Qmin a b) in *; clearbody m
  | H : context [Qmax ?a ?b] |- _ =>
      let m := fresh "m" in
      pose proof (Q.max_spec a b); set (m := Qmax a b) in *; clearbody m
  | H : context [Qmin ?a ?b] |- _ =>
      let m := fresh "m" in
      pose proof (Q.min_spec a b); set (m := Qmin a b) in *; clearbody m
  end.

Lemma source_axis (W w vx : Q) :
  0 <= w -> 0 <= W -> 0 <= vx -> vx <= Qmax 0 (W - w) ->
  let start := Qmax 0 vx in
  let stop := Qmin W (vx + w) in
  0 <= start /\ 0 <= stop - start /\ start + (stop - start) <= W.
Proof.
  intros Hw HW Hvx Hhi. cbv zeta. minmax_cases. lra.
Qed.

Lemma clamp_range (c W w : Q) :
  0 <= Qmax 0 (Qmin c (W - w)) /\
  Qmax 0 (Qmin c (W - w)) <= Qmax 0 (W - w).
Proof. minmax_cases. lra. Qed.

End WorldSourceFacts.

Section WorldPass.
Local Open Scope Q_scope.

(** C10.  On a canvas and a world of non-negative size, with the camera
    where [updateViewport] puts it (or still at the constructor's (0, 0)
    while there is no local player), the source rectangle of the world
    image that [drawWorld] passes to [drawImage] starts at or after 0,
    has non-negative width and height (startX <= endX, startY <= endY),
    and ends at or before the world's width and height. *)
Theorem drawWorld_source_in_world
    (s : GameClient) (sx sy sw sh dx dy dw dh : Q) :
  0 <= canvas_width s -> 0 <= canvas_height s ->
  0 <= worldWidth s -> 0 <= worldHeight s ->
  (myPlayer s = None -> viewportX s == 0 /\ viewportY s == 0) ->
  In (Canvas (DrawWorldImage sx sy sw sh dx dy dw dh)) (output (drawWorld s)) ->
  (0 <= sx /\ 0 <= sw /\ sx + sw <= worldWidth s) /\
  (0 <= sy /\ 0 <= sh /\ sy + sh <= worldHeight s).
Proof.
  intros Hw Hh HW HH Hcam Hin.
  destruct (worldImage s) eqn:Himg.
  2:{ rewrite drawWorld_no_image in Hin by exact Himg. destruct Hin. }
  destruct (drawWorld_redraw s Himg) as (avs & Hload & E).
  rewrite E in Hin. cbn [output] in Hin.
  destruct Hin as [Hin | [Hin | Hin]].
  - discriminate Hin.
  - cbn in Hin. injection Hin as <- <- <- <- _ _ _ _.
    pose proof (updateViewport_frame s) as F. cbv zeta in F.
    destruct F as (Fw & Fh & FW & FH & _). rewrite Fw, Fh, FW, FH.
    assert (Hvx : 0 <= viewportX (updateViewport s) /\
                  viewportX (updateViewport s)
                    <= Qmax 0 (worldWidth s - canvas_width s)).
    { unfold updateViewport. destruct (myPlayer s) as [me|] eqn:Hme; cbn.
      - apply clamp_range.
      - destruct (Hcam eq_refl) as [H0 _]. rewrite H0.
        split; [lra | apply Q.le_max_l]. }
    assert (Hvy : 0 <= viewportY (updateViewport s) /\
                  viewportY (updateViewport s)
                    <= Qmax 0 (worldHeight s - canvas_height s)).
    { unfold updateViewport. destruct (myPlayer s) as [me|] eqn:Hme; cbn.
      - apply clamp_range.
      - destruct (Hcam eq_refl) as [_ H0]. rewrite H0.
        split; [lra | apply Q.le_max_l]. }
    split; apply source_axis; tauto.
  - rewrite List.Forall_forall in Hload. apply Hload in Hin. destruct Hin.
Qed.

(** C10, on the scenario: the source rectangle is the 800 x 600 window
    at the world's origin. *)
Lemma drawWorld_source_in_world_witness :
  In (Canvas (DrawWorldImage 0 0 800 600 0 0 800 600))
     (output (drawWorld joined)) /\
  (0 <= 0 /\ 0 <= 800 /\ 0 + 800 <= worldWidth joined) /\
  (0 <= 0 /\ 0 <= 600 /\ 0 + 600 <= worldHeight joined).
Proof.
  assert (Hin : In (Canvas (DrawWorldImage 0 0 800 600 0 0 800 600))
                   (output (drawWorld joined))).
  { vm_compute. right. left. reflexivity. }
  split; [exact Hin|].
  apply (drawWorld_source_in_world joined 0 0 800 600 0 0 800 600);
    try (vm_compute; discriminate); exact Hin.
Defined.

End WorldPass.

(** ** One avatar *)

Section AvatarFacts.
Local Open Scope Q_scope.



Lemma frameIndex_animationFrame (p : player) :
  frameIndex p = animationFrame p.
Proof.
  unfold frameIndex. destruct (animationFrame p =? 0)%Z eqn:E; [|reflexivity].
  apply Z.eqb_eq in E. congruence.
Qed.

Lemma index_in_range {A} (a : list A) (i : Z) :
  (0 <= i < Z.of_nat (length a))%Z ->
  index a i = nth_error a (Z.to_nat (i mod Z.of_nat (length a))).
Proof.
  intros Hi. unfold index.
  assert ((i <? 0)%Z = false) as -> by (apply Z.ltb_ge; lia).
  now rewrite Z.mod_small by exact Hi.
Qed.

Lemma index_out_of_range {A} (a : list A) (i : Z) :
  ~ (0 <= i < Z.of_nat (length a))%Z -> index a i = None.
Proof.
  intros Hi. unfold index. destruct (i <? 0)%Z eqn:E; [reflexivity|].
  apply Z.ltb_ge in E. apply nth_error_None. lia.
Qed.


Lemma drawAvatar_on_screen
    (s : GameClient) (p : player) (av : avatarDef) (fs : list string) :
  truthy (avatar p) = true ->
  JsMap.get (avatar p) (avatars s) = Some av ->
  offscreen s (x p - viewportX s) (y p - viewportY s) = false ->
  JsMap.get (direction p) (frames av) = Some fs ->
  drawAvatar p s =
    match index fs (animationFrame p) with
    | Some src =>
        if truthy src then
          Ok tt s
            [LoadImage src
               (DrawAvatarImage src
                  (x p - viewportX s - avatarSize s / 2)
                  (y p - viewportY s - avatarSize s / 2)
                  (avatarSize s) (avatarSize s)
                :: drawUsernameLabel s (username p)
                     (x p - viewportX s) (y p - viewportY s))]
        else Ok tt s []
    | None => Ok tt s []
    end.
Proof.
  intros Hav Hget Hoff Hfs. unfold drawAvatar. run_M.
  rewrite Hav, Hget, Hoff, Hfs, frameIndex_animationFrame. cbn [negb].
  destruct (index fs (animationFrame p)) as [src|]; [|reflexivity].
  destruct (truthy src); reflexivity.
Qed.

(** C3, as the code has it.  For a player on screen whose avatar is
    known and has a frame sequence for the facing direction: when
    [animationFrame] is within the sequence, the frame loaded and drawn
    is the one at that index (which is then also the index modulo the
    length), provided that frame is a non-empty image source; when
    [animationFrame] is out of range nothing throws, and nothing is
    drawn for that player. *)
Theorem drawAvatar_frame_selected
    (s : GameClient) (p : player) (av : avatarDef) (fs : list string) :
  truthy (avatar p) = true ->
  JsMap.get (avatar p) (avatars s) = Some av ->
  offscreen s (x p - viewportX s) (y p - viewportY s) = false ->
  JsMap.get (direction p) (frames av) = Some fs ->
  (forall src,
     (0 <= animationFrame p < Z.of_nat (length fs))%Z ->
     nth_error fs
       (Z.to_nat (animationFrame p mod Z.of_nat (length fs))) = Some src ->
     truthy src = true ->
     drawAvatar p s =
       Ok tt s
         [LoadImage src
            (DrawAvatarImage src
               (x p - viewportX s - avatarSize s / 2)
               (y p - viewportY s - avatarSize s / 2)
               (avatarSize s) (avatarSize s)
             :: drawUsernameLabel s (username p)
                  (x p - viewportX s) (y p - viewportY s))]) /\
  (~ (0 <= animationFrame p < Z.of_nat (length fs))%Z ->
   drawAvatar p s = Ok tt s []).
Proof.
  intros Hav Hget Hoff Hfs.
  rewrite (drawAvatar_on_screen s p av fs Hav Hget Hoff Hfs).
  split.
  - intros src Hrange Hnth Hsrc.
    rewrite (index_in_range fs _ Hrange), Hnth, Hsrc. reflexivity.
  - intros Hrange. now rewrite (index_out_of_range fs _ Hrange).
Qed.

(** C3, on the scenario: A faces south at frame 1 of 2, and the second
    south frame is the one loaded and drawn. *)
Lemma drawAvatar_frame_selected_witness :
  (truthy (avatar playerA) = true /\
   JsMap.get (avatar playerA) (avatars joined) = Some knight /\
   offscreen joined (x playerA - viewportX joined)
                    (y playerA - viewportY joined) = false /\
   JsMap.get (direction playerA) (frames knight) = Some ["s0.png"; "s1.png"] /\
   (0 <= animationFrame playerA < 2)%Z) /\
  drawAvatar playerA joined =
    Ok tt joined
      [LoadImage "s1.png"
         (DrawAvatarImage "s1.png"
            (x playerA - viewportX joined - avatarSize joined / 2)
            (y playerA - viewportY joined - avatarSize joined / 2)
            (avatarSize joined) (avatarSize joined)
          :: drawUsernameLabel joined (username playerA)
               (x playerA - viewportX joined) (y playerA - viewportY joined))].
Proof.
  split; [repeat split; (reflexivity || (cbn; lia))|].
  apply (proj1 (drawAvatar_frame_selected joined playerA knight
                  ["s0.png"; "s1.png"]
                  eq_refl eq_refl eq_refl eq_refl) "s1.png").
  - cbn. lia.
  - reflexivity.
  - reflexivity.
Defined.

(** C3 as written fails: D is on screen, its avatar has two south frames,
    its [animationFrame] is 2, and the frame at 2 modulo 2 exists; yet
    nothing is loaded or drawn for D. *)
Lemma drawAvatar_frame_modulo_counterexample :
  offscreen joined (x playerD - viewportX joined)
                   (y playerD - viewportY joined) = false /\
  JsMap.get (avatar playerD) (avatars joined) = Some knight /\
  JsMap.get (direction playerD) (frames knight) = Some ["s0.png"; "s1.png"] /\
  nth_error ["s0.png"; "s1.png"]
    (Z.to_nat (animationFrame playerD mod 2)) = Some "s0.png" /\
  drawAvatar playerD joined = Ok tt joined [].
Proof. repeat split; reflexivity. Qed.




End AvatarFacts.

(** ** Inbound messages *)

Lemma upsertEntry_run (entry : string * player) (s : GameClient) :
  upsertEntry entry s = Ok tt (upserted s entry) [].
Proof.
  destruct entry as [k v]. unfold upsertEntry, upserted. run_M. cbn.
  destruct (bool_decide (Some k = myPlayerId s)); reflexivity.
Qed.

Lemma forEach_upsertEntry (ps : list (string * player)) (s : GameClient) :
  forEach ps upsertEntry s = Ok tt (fold_left upserted ps s) [].
Proof.
  revert s. induction ps as [|e ps IH]; intros s; cbn [forEach fold_left].
  - reflexivity.
  - erewrite bind_Ok by apply upsertEntry_run. now rewrite IH.
Qed.

Lemma upserted_frame (s : GameClient) (entry : string * player) :
  let s' := upserted s entry in
  worldImage s' = worldImage s /\ myPlayerId s' = myPlayerId s /\
  avatars s' = avatars s /\ keysPressed s' = keysPressed s /\
  connected s' = connected s.
Proof.
  cbv zeta. unfold upserted. cbn.
  destruct (bool_decide _); cbn; repeat split; reflexivity.
Qed.

Lemma fold_upserted_frame (ps : list (string * player)) (s : GameClient) :
  let s' := fold_left upserted ps s in
  worldImage s' = worldImage s /\ myPlayerId s' = myPlayerId s /\
  avatars s' = avatars s /\ keysPressed s' = keysPressed s /\
  connected s' = connected s.
Proof.
  cbv zeta. revert s. induction ps as [|e ps IH]; intros s; cbn [fold_left].
  - repeat split; reflexivity.
  - destruct (IH (upserted s e)) as (-> & -> & -> & -> & ->).
    apply upserted_frame.
Qed.

Lemma upserted_players (s : GameClient) (entry : string * player) :
  players (upserted s entry) = JsMap.set (fst entry) (snd entry) (players s).
Proof. unfold upserted. cbn. destruct (bool_decide _); reflexivity. Qed.

(** Entries for other ids leave an id's record, and the local player
    when that id is the local one, as they were. *)
Lemma fold_upserted_other
    (ps : list (string * player)) (s : GameClient) (pid : string) :
  ~ In pid (map fst ps) ->
  let s' := fold_left upserted ps s in
  JsMap.get pid (players s') = JsMap.get pid (players s) /\
  (myPlayerId s = Some pid -> myPlayer s' = myPlayer s).
Proof.
  cbv zeta. revert s. induction ps as [|[k v] ps IH]; intros s Hnot;
    cbn [fold_left].
  - split; [reflexivity | intros _; reflexivity].
  - cbn in Hnot.
    assert (Hk : k <> pid) by tauto.
    assert (Hps : ~ In pid (map fst ps)) by tauto.
    destruct (IH (upserted s (k, v)) Hps) as [Hget Hme].
    rewrite Hget, upserted_players. cbn [fst snd].
    split; [now apply get_set_ne|].
    intros Hid. rewrite Hme.
    + unfold upserted. cbn. rewrite Hid.
      rewrite bool_decide_eq_false_2 by congruence. reflexivity.
    + now rewrite (proj1 (proj2 (upserted_frame s (k, v)))).
Qed.

(** The upsert loop on the entries of one object: every entry ends up
    in the store, and the entry of the local id becomes [myPlayer]. *)
Lemma fold_upserted_entry
    (ps : list (string * player)) (s : GameClient) (pid : string) (p : player) :
  NoDup (map fst ps) -> In (pid, p) ps ->
  let s' := fold_left upserted ps s in
  JsMap.get pid (players s') = Some p /\
  (myPlayerId s = Some pid -> myPlayer s' = Some p).
Proof.
  cbv zeta. revert s. induction ps as [|[k v] ps IH]; intros s Hnd Hin;
    cbn [fold_left]; [destruct Hin|].
  cbn in Hnd. apply NoDup_cons in Hnd as [Hk Hnd].
  destruct Hin as [Heq | Hin].
  - injection Heq as -> ->.
    destruct (fold_upserted_other ps (upserted s (pid, p)) pid) as [Hget Hme].
    { intros Hc. apply Hk. now apply list_elem_of_In. }
    rewrite Hget, upserted_players. cbn [fst snd]. split.
    + apply get_set_eq.
    + intros Hid. rewrite Hme.
      * unfold upserted. cbn. rewrite Hid.
        rewrite bool_decide_eq_true_2 by reflexivity. reflexivity.
      * now rewrite (proj1 (proj2 (upserted_frame s (pid, p)))).
  - destruct (IH (upserted s (k, v)) Hnd Hin) as [Hget Hme].
    split; [exact Hget|].
    intros Hid. apply Hme.
    now rewrite (proj1 (proj2 (upserted_frame s (k, v)))).
Qed.

Lemma handlePlayersMoved_run
    (m : message) (ps : list (string * player)) (s : GameClient) :
  msg_players m = Some ps ->
  exists out,
    handlePlayersMoved m s =
      Ok tt (let s' := fold_left upserted ps s in
             if worldImage s' then updateViewport s' else s') out.
Proof.
  intros Hps. unfold handlePlayersMoved, Object_entries. rewrite Hps.
  cbn [field].
  destruct (drawWorld_total (fold_left upserted ps s)) as (out & E).
  exists out.
  erewrite bind_Ok by reflexivity. cbn [app].
  erewrite bind_Ok by apply forEach_upsertEntry. cbn [app].
  now rewrite E.
Qed.

Lemma handleServerMessage_players_moved (m : message) :
  action m = "players_moved" -> handleServerMessage m = handlePlayersMoved m.
Proof. intros H. unfold handleServerMessage. now rewrite H. Qed.

Lemma handleServerMessage_player_joined (m : message) :
  action m = "player_joined" -> handleServerMessage m = handlePlayerJoined m.
Proof. intros H. unfold handleServerMessage. now rewrite H. Qed.

Lemma handleServerMessage_player_left (m : message) :
  action m = "player_left" -> handleServerMessage m = handlePlayerLeft m.
Proof. intros H. unfold handleServerMessage. now rewrite H. Qed.

(** C5.  A [players_moved] message whose [players] object has an entry
    for an id that is not in the player store is processed without
    throwing, and afterwards the store maps that id to the record the
    message carried. *)
Theorem players_moved_inserts_unknown_id
    (s : GameClient) (m : message) (ps : list (string * player))
    (pid : string) (p : player) :
  action m = "players_moved" ->
  msg_players m = Some ps ->
  NoDup (map fst ps) ->
  In (pid, p) ps ->
  JsMap.get pid (players s) = None ->
  exists s' out,
    handleServerMessage m s = Ok tt s' out /\
    JsMap.get pid (players s') = Some p.
Proof.
  intros Hact Hps Hnd Hin _.
  rewrite (handleServerMessage_players_moved m Hact).
  destruct (handlePlayersMoved_run m ps s Hps) as (out & E).
  eexists _, out. split; [exact E|].
  destruct (fold_upserted_entry ps s pid p Hnd Hin) as [Hget _].
  cbv zeta. destruct (worldImage _); [|exact Hget].
  now rewrite (proj1 (proj2 (proj2 (proj2 (proj2 (proj2 (proj2 (proj2
                 (updateViewport_frame _))))))))).
Qed.

(** C5, on the scenario: E moves before anyone announced E. *)
Lemma players_moved_inserts_unknown_id_witness :
  JsMap.get "E" (players joined) = None /\
  exists s' out,
    handleServerMessage movedE joined = Ok tt s' out /\
    JsMap.get "E" (players s') = Some playerE.
Proof.
  split; [reflexivity|].
  apply (players_moved_inserts_unknown_id joined movedE [("E", playerE)]).
  - reflexivity.
  - reflexivity.
  - apply NoDup_singleton.
  - left. reflexivity.
  - reflexivity.
Defined.

(** The sibling of [handlePlayerJoined]: [players_moved] does refresh
    the cached local player when the local id is among the entries. *)
Lemma players_moved_refreshes_local
    (s : GameClient) (m : message) (ps : list (string * player))
    (pid : string) (p : player) :
  msg_players m = Some ps ->
  NoDup (map fst ps) ->
  In (pid, p) ps ->
  myPlayerId s = Some pid ->
  myPlayer (final (handlePlayersMoved m s)) = Some p.
Proof.
  intros Hps Hnd Hin Hid.
  destruct (handlePlayersMoved_run m ps s Hps) as (out & E).
  rewrite E. cbn [final]. cbv zeta.
  destruct (fold_upserted_entry ps s pid p Hnd Hin) as [_ Hme].
  specialize (Hme Hid).
  destruct (worldImage _); [|exact Hme].
  now rewrite (proj1 (proj2 (proj2 (proj2 (proj2 (proj2 (proj2
                 (updateViewport_frame _)))))))).
Qed.

(** What [handlePlayerJoined] does, case by case on the two fields it
    reads. *)
Lemma handlePlayerJoined_run (m : message) (s : GameClient) :
  handlePlayerJoined m s =
    match msg_player m with
    | None =>
        Throw (TypeError "Cannot read properties of undefined (reading 'id')")
          s []
    | Some p =>
        let s1 := set_players (JsMap.set (id p) p (players s)) s in
        match msg_avatar m with
        | None =>
            Throw
              (TypeError "Cannot read properties of undefined (reading 'name')")
              s1 []
        | Some a =>
            Ok tt (set_avatars (JsMap.set (name a) a (avatars s1)) s1) []
        end
    end.
Proof.
  unfold handlePlayerJoined.
  destruct (msg_player m) as [p|]; [|reflexivity].
  destruct (msg_avatar m) as [a|]; reflexivity.
Qed.

Lemma handlePlayerLeft_run (m : message) (s : GameClient) :
  handlePlayerLeft m s =
    Ok tt
      match playerId m with
      | Some pid => set_players (JsMap.delete pid (players s)) s
      | None => s
      end [].
Proof. unfold handlePlayerLeft. destruct (playerId m); reflexivity. Qed.

(** C8.  Processing the same [player_joined] message a second time
    leaves the player store and the avatar store exactly as the first
    processing left them. *)
Theorem player_joined_idempotent (s : GameClient) (m : message) :
  action m = "player_joined" ->
  let once := final (handleServerMessage m s) in
  let twice := final (handleServerMessage m once) in
  players twice = players once /\ avatars twice = avatars once.
Proof.
  intros Hact. rewrite (handleServerMessage_player_joined m Hact). cbv zeta.
  rewrite !handlePlayerJoined_run.
  destruct (msg_player m) as [p|]; [|split; reflexivity].
  destruct (msg_avatar m) as [a|]; cbn; rewrite ?set_set; split; reflexivity.
Qed.

(** C8, on the scenario: E is announced twice. *)
Lemma player_joined_idempotent_witness :
  action joinedE = "player_joined" /\
  players (final (handleServerMessage joinedE
                    (final (handleServerMessage joinedE joined)))) =
    players (final (handleServerMessage joinedE joined)) /\
  avatars (final (handleServerMessage joinedE
                    (final (handleServerMessage joinedE joined)))) =
    avatars (final (handleServerMessage joinedE joined)).
Proof.
  split; [reflexivity|].
  apply (player_joined_idempotent joined joinedE). reflexivity.
Defined.

(** C2: the code does not do this.  [handlePlayerJoined] and
    [handlePlayerLeft] change the player store and write nothing to the
    canvas, for any message and from any state; on the scenario, E
    joins and B leaves without a single draw call, while the same state
    redraws when a [players_moved] message arrives. *)
Theorem player_joined_left_no_redraw :
  (forall s m, output (handlePlayerJoined m s) = [] /\
               output (handlePlayerLeft m s) = []) /\
  (let r := handleServerMessage joinedE joined in
   JsMap.get "E" (players joined) = None /\
   JsMap.get "E" (players (final r)) = Some playerE /\
   output r = []) /\
  (let r := handleServerMessage leftB joined in
   JsMap.get "B" (players joined) = Some playerB /\
   JsMap.get "B" (players (final r)) = None /\
   output r = []) /\
  (exists rest,
     output (handleServerMessage movedE joined) =
       Canvas (ClearRect 0 0 (canvas_width joined) (canvas_height joined))
       :: rest).
Proof.
  split; [|split; [|split]].
  - intros s m. rewrite handlePlayerJoined_run, handlePlayerLeft_run.
    destruct (msg_player m); [destruct (msg_avatar m)|]; split; reflexivity.
  - repeat split; reflexivity.
  - repeat split; reflexivity.
  - eexists. vm_compute. reflexivity.
Qed.

(** C6: the code does not do this on the [player_joined] path.
    [handlePlayerJoined] never assigns [myPlayer]; on the scenario, a
    [player_joined] message for the local id A stores the new record
    and leaves the cached local player at the old one, while the same
    record arriving in a [players_moved] message replaces it. *)
Theorem player_joined_leaves_local_stale :
  (forall s m, myPlayer (final (handlePlayerJoined m s)) = myPlayer s) /\
  (let s' := final (handleServerMessage joinedA' joined) in
   myPlayerId s' = Some "A" /\
   JsMap.get "A" (players s') = Some playerA' /\
   myPlayer s' = Some playerA /\
   playerA <> playerA') /\
  myPlayer (final (handleServerMessage movedA' joined)) = Some playerA'.
Proof.
  split; [|split].
  - intros s m. rewrite handlePlayerJoined_run.
    destruct (msg_player m); [destruct (msg_avatar m)|]; reflexivity.
  - repeat split; try reflexivity. discriminate.
  - apply (players_moved_refreshes_local joined movedA' [("A", playerA')] "A").
    + reflexivity.
    + apply NoDup_singleton.
    + left. reflexivity.
    + reflexivity.
Qed.

(** ** The connection *)

(** C9, as the code has it.  When the socket closes, [connected]
    becomes false and nothing is thrown; the local player id, the
    cached local player, the player store and the avatar store stay as
    they were.  When the socket reports an error the client is left
    entirely unchanged, [connected] included. *)
Theorem transport_close_or_error (s : GameClient) :
  (handle WsClose s = Ok tt (set_connected false s) [] /\
   let s' := final (handle WsClose s) in
   connected s' = false /\
   myPlayerId s' = myPlayerId s /\ myPlayer s' = myPlayer s /\
   players s' = players s /\ avatars s' = avatars s) /\
  handle WsError s = Ok tt s [].
Proof. repeat split; reflexivity. Qed.

(** C9 as written fails: after the close the local id is still A, and
    after an error the client still counts as connected. *)
Lemma transport_close_keeps_identity_counterexample :
  myPlayerId joined = Some "A" /\
  myPlayerId (final (handle WsClose joined)) = Some "A" /\
  myPlayerId (final (handle WsError joined)) = Some "A" /\
  connected (final (handle WsError joined)) = true.
Proof. repeat split; reflexivity. Qed.

(** ** Held keys and the stop intent *)

Section Quiet.
Context {A B : Type}.

Lemma quiet_ret (a : A) : quiet (mret a).
Proof. intros s. split; [reflexivity | intros []]. Qed.

Lemma quiet_throw (e : exn) : quiet (mthrow e : M A).
Proof. intros s. split; [reflexivity | intros []]. Qed.

Lemma quiet_bind (m : M A) (f : A -> M B) :
  quiet m -> (forall a, quiet (f a)) -> quiet (m ≫= f).
Proof.
  intros Hm Hf s. destruct (Hm s) as [Hk Ho].
  unfold mbind, M_bind.
  destruct (m s) as [a s1 o1 | e s1 o1]; cbn [final output] in *.
  - destruct (Hf a s1) as [Hk' Ho'].
    destruct (f a s1) as [b s2 o2 | e s2 o2]; cbn [final output] in *.
    + split; [congruence|]. rewrite in_app_iff. tauto.
    + split; [congruence|]. rewrite in_app_iff. tauto.
  - tauto.
Qed.

Lemma quiet_field (what : string) (o : option A) : quiet (field what o).
Proof. destruct o; [apply quiet_ret | apply quiet_throw]. Qed.
End Quiet.

Lemma quiet_this : quiet this.
Proof. intros s. split; [reflexivity | intros []]. Qed.

Lemma quiet_assign (f : GameClient -> GameClient) :
  (forall s, keysPressed (f s) = keysPressed s) -> quiet (assign f).
Proof. intros Hf s. split; [apply Hf | intros []]. Qed.

Lemma quiet_emit (e : effect) : e <> Send Stop -> quiet (emit e).
Proof.
  intros He s. split; [reflexivity|]. intros [H | []]. congruence.
Qed.

Lemma quiet_forEach {A} (l : list A) (body : A -> M unit) :
  (forall a, quiet (body a)) -> quiet (forEach l body).
Proof.
  intros Hb. induction l as [|a l IH]; cbn [forEach].
  - apply quiet_ret.
  - apply quiet_bind; [apply Hb | intros _; exact IH].
Qed.

Create HintDb quiet.
#[local] Hint Resolve quiet_ret quiet_throw quiet_field quiet_this
  quiet_forEach : quiet.

(** Walks through a method: binds, branches, assignments and writes. *)
Ltac quiet_step :=
  first
    [ assumption
    | apply quiet_bind; [| intros ?]
    | apply quiet_assign; intros ?; reflexivity
    | apply quiet_assign; intros ?; apply updateViewport_frame
    | apply quiet_emit; discriminate
    | solve [auto with quiet]
    | match goal with
      | |- quiet (if ?b then _ else _) => destruct b
      | |- quiet (match ?o with Some _ => _ | None => _ end) => destruct o
      | |- quiet (let '(_, _) := ?e in _) => destruct e
      end ].

Lemma quiet_drawAvatar (p : player) : quiet (drawAvatar p).
Proof. unfold drawAvatar. repeat quiet_step. Qed.

Lemma quiet_drawAvatars : quiet drawAvatars.
Proof.
  unfold drawAvatars. apply quiet_bind; [apply quiet_this|]. intros s.
  apply quiet_forEach. intros entry. apply quiet_drawAvatar.
Qed.

Lemma quiet_drawWorld : quiet drawWorld.
Proof.
  unfold drawWorld, worldSource.
  pose proof quiet_drawAvatars. repeat quiet_step.
Qed.

Lemma quiet_upsertEntry (entry : string * player) : quiet (upsertEntry entry).
Proof. destruct entry. unfold upsertEntry. repeat quiet_step. Qed.

Lemma quiet_handleServerMessage (m : message) : quiet (handleServerMessage m).
Proof.
  pose proof quiet_drawWorld. pose proof quiet_upsertEntry.
  unfold handleServerMessage, handleJoinGameResponse, handlePlayersMoved,
    handlePlayerJoined, handlePlayerLeft, Object_entries.
  repeat quiet_step.
  apply quiet_forEach. intros [avatarName avatarData]. repeat quiet_step.
Qed.

Lemma quiet_onopen : quiet onopen.
Proof. unfold onopen, joinGame. repeat quiet_step. Qed.

(** An own key of the table is found by the lookup, with its direction. *)
Lemma movementKeys_at_own (key d : string) :
  movementKeys key = Some d -> movementKeys_at key = Some (Direction d).
Proof. intros H. unfold movementKeys_at. now rewrite H. Qed.

Lemma movementKeys_at_is_Some (key : string) :
  is_Some (movementKeys key) -> is_Some (movementKeys_at key).
Proof. intros [d Hd]. rewrite (movementKeys_at_own key d Hd). eauto. Qed.

(** A key press only adds to the held set, and sends no [stop]. *)
Lemma keydown_spec (key : string) (s : GameClient) :
  let r := keydown key s in
  keysPressed s ⊆ keysPressed (final r) /\
  (is_Some (movementKeys key) -> key ∈ keysPressed (final r)) /\
  ~ In (Send Stop) (output r).
Proof.
  cbv zeta. unfold keydown, startMovement. run_M.
  destruct (movementKeys_at key) as [d|] eqn:Hat; cbn.
  2:{ split; [set_solver|]. split; [|intros []].
      intros Hown. apply movementKeys_at_is_Some in Hown.
      rewrite Hat in Hown. destruct Hown as [? ?]. discriminate. }
  destruct (bool_decide (key ∈ keysPressed s)) eqn:Hheld; cbn.
  { apply bool_decide_eq_true_1 in Hheld.
    split; [set_solver|]. split; [intros _; exact Hheld | intros []]. }
  destruct (connected s); cbn;
    (split; [set_solver|]; split; [intros _; set_solver|]).
  - intros [H | []]. discriminate H.
  - intros [].
Qed.

(** A key release removes that key only; a [stop] goes out only if no
    key is held afterwards. *)
Lemma keyup_spec (key : string) (s : GameClient) :
  let r := keyup key s in
  (forall k, k ∈ keysPressed s -> k <> key -> k ∈ keysPressed (final r)) /\
  (In (Send Stop) (output r) -> keysPressed (final r) = ∅).
Proof.
  cbv zeta. unfold keyup, stopMovement. run_M.
  destruct (movementKeys_at key) as [d|]; cbn.
  2:{ split; [auto | intros []]. }
  destruct (connected s); cbn.
  2:{ split; [intros; set_solver | intros []]. }
  destruct (size (keysPressed s ∖ {[key]}) =? 0)%nat eqn:Hsz; cbn.
  - split; [intros; set_solver|]. intros _.
    apply Nat.eqb_eq in Hsz. apply leibniz_equiv. now apply size_empty_iff.
  - split; [intros; set_solver | intros []].
Qed.

Lemma quiet_handle (e : event) :
  (forall k, e <> KeyDown k) -> (forall k, e <> KeyUp k) -> quiet (handle e).
Proof.
  intros Hdown Hup. destruct e as [k | k | | m | | | w h |]; cbn [handle].
  - now destruct (Hdown k).
  - now destruct (Hup k).
  - apply quiet_onopen.
  - apply quiet_handleServerMessage.
  - unfold onclose. repeat quiet_step.
  - unfold onerror. repeat quiet_step.
  - pose proof quiet_drawWorld. repeat quiet_step.
  - apply quiet_drawWorld.
Qed.

(** In any turn, a [stop] goes out only if no key is held once the turn
    is over. *)
Lemma stop_implies_none_held (e : event) (s : GameClient) :
  In (Send Stop) (output (handle e s)) ->
  keysPressed (final (handle e s)) = ∅.
Proof.
  destruct e as [k | k | | m | | | w h |].
  1: intros Hstop; exfalso; revert Hstop;
     exact (proj2 (proj2 (keydown_spec k s))).
  1: exact (proj2 (keyup_spec k s)).
  all: match goal with
       | |- In _ (output (handle ?ev ?st)) -> _ =>
           let Hq := fresh "Hq" in
           assert (Hq : quiet (handle ev))
             by (apply quiet_handle; discriminate);
           intros Hstop; exfalso; exact (proj2 (Hq st) Hstop)
       end.
Qed.

(** While a key stays held, nothing the client handles sends a [stop]. *)
Lemma held_step (k : string) (e : event) (s : GameClient) :
  k ∈ keysPressed s -> e <> KeyUp k ->
  k ∈ keysPressed (final (handle e s)) /\
  ~ In (Send Stop) (output (handle e s)).
Proof.
  intros Hheld Hne.
  assert (Hstays : k ∈ keysPressed (final (handle e s))).
  { destruct e as [k' | k' | | m | | | w h |].
    1: exact (proj1 (keydown_spec k' s) k Hheld).
    1: apply (proj1 (keyup_spec k' s)); [exact Hheld | congruence].
    all: match goal with
         | |- _ ∈ keysPressed (final (handle ?ev ?st)) =>
             let Hq := fresh "Hq" in
             assert (Hq : quiet (handle ev))
               by (apply quiet_handle; discriminate);
             rewrite (proj1 (Hq st)); exact Hheld
         end. }
  split; [exact Hstays|].
  intros Hstop. apply stop_implies_none_held in Hstop.
  rewrite Hstop in Hstays. set_solver.
Qed.

Lemma held_run (k : string) (evs : list event) (s : GameClient) :
  k ∈ keysPressed s ->
  List.Forall (fun e => e <> KeyUp k) evs ->
  List.Forall (fun turn => ~ In (Send Stop) (snd turn)) (run s evs).
Proof.
  revert s. induction evs as [|e evs IH]; intros s Hheld Hevs; cbn [run].
  - constructor.
  - inversion Hevs as [|? ? He Hrest]; subst.
    destruct (held_step k e s Hheld He) as [Hstays Hquiet].
    constructor; [exact Hquiet|].
    apply IH; [exact Hstays | exact Hrest].
Qed.

Lemma run_cons (s : GameClient) (e : event) (evs : list event) :
  run s (e :: evs) = dispatch s e :: run (fst (dispatch s e)) evs.
Proof. reflexivity. Qed.

(** C7.  In every turn of the event loop, a [stop] intent goes out only
    if no movement key is held once the turn is over.  In particular,
    from any state, after two different movement keys are pressed and
    the first is released, no turn sends a [stop] for as long as the
    second key is not released, whatever other events arrive. *)
Theorem stop_only_when_no_key_held
    (s : GameClient) (k1 k2 : string) (evs : list event) :
  is_Some (movementKeys k1) -> is_Some (movementKeys k2) -> k1 <> k2 ->
  List.Forall (fun e => e <> KeyUp k2) evs ->
  (forall e s0,
     In (Send Stop) (output (handle e s0)) ->
     keysPressed (final (handle e s0)) = ∅) /\
  List.Forall (fun turn => ~ In (Send Stop) (snd turn))
    (run s (KeyDown k1 :: KeyDown k2 :: KeyUp k1 :: evs)).
Proof.
  intros Hk1 Hk2 Hne Hevs. split; [exact stop_implies_none_held|].
  do 2 rewrite run_cons. unfold dispatch. cbn [fst snd handle].
  constructor; [exact (proj2 (proj2 (keydown_spec k1 s)))|].
  constructor; [exact (proj2 (proj2 (keydown_spec k2 _)))|].
  apply (held_run k2).
  - exact (proj1 (proj2 (keydown_spec k2 _)) Hk2).
  - constructor; [congruence | exact Hevs].
Qed.

(** C7, on the scenario: Up and Left are pressed, Up is released and
    nothing is sent; only the release of Left sends the [stop]. *)
Lemma stop_only_when_no_key_held_witness :
  (is_Some (movementKeys "ArrowUp") /\ is_Some (movementKeys "ArrowLeft") /\
   "ArrowUp" <> "ArrowLeft") /\
  List.Forall (fun turn => ~ In (Send Stop) (snd turn))
    (run joined [KeyDown "ArrowUp"; KeyDown "ArrowLeft"; KeyUp "ArrowUp"]) /\
  map snd (run joined [KeyDown "ArrowUp"; KeyDown "ArrowLeft";
                       KeyUp "ArrowUp"; KeyUp "ArrowLeft"]) =
    [[Send (Move (Direction "up"))]; [Send (Move (Direction "left"))];
     []; [Send Stop]].
Proof.
  assert (Hup : is_Some (movementKeys "ArrowUp")) by (eexists; reflexivity).
  assert (Hleft : is_Some (movementKeys "ArrowLeft")) by (eexists; reflexivity).
  assert (Hne : "ArrowUp" <> "ArrowLeft") by discriminate.
  split; [auto|]. split; [|vm_compute; reflexivity].
  exact (proj2 (stop_only_when_no_key_held joined "ArrowUp" "ArrowLeft" []
                  Hup Hleft Hne (List.Forall_nil _))).
Defined.

(** ** The join, end to end

    From a connected client on an 800 x 600 canvas, the join result is
    processed without throwing and leads to [joined]: the camera is
    clamped to (0, 0), the world's window at the origin is drawn, A is
    drawn, and B is in the store but off screen and not drawn. *)
Example join_scenario :
  handleServerMessage joinResult (set_connected true (init 800 600)) =
    Ok tt (updateViewport joined)
      (Canvas (ClearRect 0 0 800 600)
       :: Canvas (DrawWorldImage 0 0 800 600 0 0 800 600)
       :: output (drawAvatar playerA joined)) /\
  (viewportX (updateViewport joined) == 0 /\
   viewportY (updateViewport joined) == 0)%Q /\
  JsMap.get "B" (players (updateViewport joined)) = Some playerB /\
  output (drawAvatar playerB joined) = [].
Proof. repeat split; vm_compute; reflexivity. Qed.

(** * Further properties of the client *)

(** ** Invariants through a method *)

Section Keeps.
Context (I : GameClient -> Prop) (P : effect -> Prop).

Lemma keeps_ret {A} (a : A) : keeps I P (mret a).
Proof. intros s Hs. split; [exact Hs | constructor]. Qed.

Lemma keeps_throw {A} (e : exn) : keeps I P (mthrow e : M A).
Proof. intros s Hs. split; [exact Hs | constructor]. Qed.

Lemma keeps_this : keeps I P this.
Proof. intros s Hs. split; [exact Hs | constructor]. Qed.

Lemma keeps_field {A} (what : string) (o : option A) : keeps I P (field what o).
Proof. destruct o; [apply keeps_ret | apply keeps_throw]. Qed.

Lemma keeps_assign (f : GameClient -> GameClient) :
  (forall s, I s -> I (f s)) -> keeps I P (assign f).
Proof. intros Hf s Hs. split; [apply Hf, Hs | constructor]. Qed.

Lemma keeps_emit (e : effect) : P e -> keeps I P (emit e).
Proof. intros He s Hs. split; [exact Hs | repeat constructor; exact He]. Qed.

Lemma keeps_bind {A B} (m : M A) (f : A -> M B) :
  keeps I P m -> (forall a, keeps I P (f a)) -> keeps I P (m ≫= f).
Proof.
  intros Hm Hf s Hs. destruct (Hm s Hs) as [Hi Ho].
  unfold mbind, M_bind.
  destruct (m s) as [a s1 o1 | e s1 o1]; cbn [final output] in *.
  - destruct (Hf a s1 Hi) as [Hi' Ho'].
    destruct (f a s1) as [b s2 o2 | e s2 o2]; cbn [final output] in *;
      (split; [exact Hi' | apply List.Forall_app; split; assumption]).
  - split; assumption.
Qed.

Lemma keeps_forEach {A} (l : list A) (body : A -> M unit) :
  (forall a, keeps I P (body a)) -> keeps I P (forEach l body).
Proof.
  intros Hb. induction l as [|a l IH]; cbn [forEach].
  - apply keeps_ret.
  - apply keeps_bind; [apply Hb | intros _; exact IH].
Qed.

(** Every turn of a run keeps the invariant and writes only such
    effects, when the handler of every event does. *)
Lemma run_keeps (evs : list event) (s : GameClient) :
  List.Forall (fun e => keeps I P (handle e)) evs ->
  I s ->
  List.Forall (fun turn => I (fst turn) /\ List.Forall P (snd turn))
    (run s evs).
Proof.
  revert s. induction evs as [|e evs IH]; intros s Hevs Hs; cbn [run].
  - constructor.
  - inversion Hevs as [|? ? He Hrest]; subst.
    destruct (He s Hs) as [Hi Ho].
    constructor; [split; assumption|].
    apply IH; [exact Hrest | exact Hi].
Qed.

Lemma after_keeps (evs : list event) (s : GameClient) :
  List.Forall (fun e => keeps I P (handle e)) evs ->
  I s -> I (after s evs).
Proof.
  unfold after. revert s.
  induction evs as [|e evs IH]; intros s Hevs Hs; cbn [fold_left].
  - exact Hs.
  - inversion Hevs as [|? ? He Hrest]; subst.
    apply IH; [exact Hrest | exact (proj1 (He s Hs))].
Qed.
End Keeps.

(** Walks through a method; [side] settles what an assignment or a
    write has to satisfy. *)
Ltac keeps_step side :=
  first
    [ assumption
    | apply keeps_bind; [| intros ?]
    | apply keeps_assign; solve [side]
    | apply keeps_emit; solve [side]
    | apply keeps_ret
    | apply keeps_throw
    | apply keeps_this
    | apply keeps_field
    | match goal with
      | |- keeps _ _ (if ?b then _ else _) => destruct b
      | |- keeps _ _ (match ?o with Some _ => _ | None => _ end) => destruct o
      | |- keeps _ _ (let '(_, _) := ?e in _) => destruct e
      end ].

(** The shape every handler has: what has to be shown of its
    assignments and writes is left to [side]. *)
Ltac keeps_handlers side :=
  repeat match goal with
  | |- keeps _ _ (forEach _ _) => apply keeps_forEach; intros ?
  | |- keeps _ _ (upsertEntry ?e) => destruct e; unfold upsertEntry
  | |- keeps _ _ (let '(_, _) := ?e in _) => destruct e
  | |- keeps _ _ (match ?e with (_, _) => _ end) => destruct e
  | |- _ => keeps_step side
  end.

(** ** More on the stores *)

Section JsMapMore.
Context {V : Type}.
Implicit Types (k : string) (v : V) (m : JsMap.t V).

Lemma in_keys_set k k' v m :
  In k' (map fst (JsMap.set k v m)) <-> k' = k \/ In k' (map fst m).
Proof.
  induction m as [|[k0 v0] m IH]; cbn.
  - intuition congruence.
  - destruct (String.eqb k k0) eqn:E; cbn.
    + apply String.eqb_eq in E. subst k0. intuition congruence.
    + rewrite IH. intuition congruence.
Qed.

Lemma in_keys_delete k k' m :
  In k' (map fst (JsMap.delete k m)) -> In k' (map fst m).
Proof.
  induction m as [|[k0 v0] m IH]; cbn; [tauto|].
  destruct (String.eqb k k0); cbn; tauto.
Qed.

Lemma get_None_keys k m : JsMap.get k m = None <-> ~ In k (map fst m).
Proof.
  induction m as [|[k0 v0] m IH]; cbn; [tauto|].
  destruct (String.eqb k k0) eqn:E.
  - apply String.eqb_eq in E. subst k0. split; [discriminate | tauto].
  - apply String.eqb_neq in E. rewrite IH. intuition congruence.
Qed.

Lemma get_is_Some_keys k m : is_Some (JsMap.get k m) <-> In k (map fst m).
Proof.
  destruct (JsMap.get k m) as [v|] eqn:E.
  - split; [intros _ | intros _; eauto].
    destruct (in_dec String.string_dec k (map fst m)) as [H|H]; [exact H|].
    apply get_None_keys in H. congruence.
  - split; [intros [? ?]; discriminate|].
    intros H. apply get_None_keys in E. contradiction.
Qed.

Lemma NoDup_keys_set k v m :
  NoDup (map fst m) -> NoDup (map fst (JsMap.set k v m)).
Proof.
  induction m as [|[k0 v0] m IH]; cbn; intros Hnd.
  - apply NoDup_singleton.
  - apply NoDup_cons in Hnd as [Hk0 Hm].
    destruct (String.eqb k k0) eqn:E; cbn.
    + apply String.eqb_eq in E. subst k0. now apply NoDup_cons.
    + apply String.eqb_neq in E. apply NoDup_cons. split; [|apply IH, Hm].
      rewrite list_elem_of_In, in_keys_set, <- list_elem_of_In.
      intuition congruence.
Qed.

Lemma NoDup_keys_delete k m :
  NoDup (map fst m) -> NoDup (map fst (JsMap.delete k m)).
Proof.
  induction m as [|[k0 v0] m IH]; cbn; intros Hnd; [constructor|].
  apply NoDup_cons in Hnd as [Hk0 Hm].
  destruct (String.eqb k k0); cbn; [exact Hm|].
  apply NoDup_cons. split; [|apply IH, Hm].
  intros H. apply Hk0. apply list_elem_of_In in H.
  apply list_elem_of_In. eapply in_keys_delete, H.
Qed.

Lemma get_delete_eq k m :
  NoDup (map fst m) -> JsMap.get k (JsMap.delete k m) = None.
Proof.
  induction m as [|[k0 v0] m IH]; cbn; intros Hnd; [reflexivity|].
  apply NoDup_cons in Hnd as [Hk0 Hm].
  destruct (String.eqb k k0) eqn:E; cbn.
  - apply String.eqb_eq in E. subst k0. apply get_None_keys.
    now rewrite <- list_elem_of_In.
  - rewrite E. apply IH, Hm.
Qed.

Lemma get_delete_other k k' m :
  k <> k' -> JsMap.get k' (JsMap.delete k m) = JsMap.get k' m.
Proof.
  intros Hne. induction m as [|[k0 v0] m IH]; cbn; [reflexivity|].
  destruct (String.eqb k k0) eqn:E; cbn.
  - apply String.eqb_eq in E. subst k0.
    assert (String.eqb k' k = false) as -> by (apply String.eqb_neq; congruence).
    reflexivity.
  - now rewrite IH.
Qed.

Lemma delete_absent k m : JsMap.get k m = None -> JsMap.delete k m = m.
Proof.
  induction m as [|[k0 v0] m IH]; cbn; [reflexivity|].
  destruct (String.eqb k k0); [discriminate|].
  intros H. now rewrite IH.
Qed.

(** A key set for the first time goes last, so deleting it again gives
    back the very same map. *)
Lemma delete_set_fresh k v m :
  JsMap.get k m = None -> JsMap.delete k (JsMap.set k v m) = m.
Proof.
  induction m as [|[k0 v0] m IH]; cbn.
  - intros _. now rewrite String.eqb_refl.
  - destruct (String.eqb k k0) eqn:E; [discriminate|].
    intros H. cbn. now rewrite E, IH.
Qed.

Lemma set_all_cons (l : list (string * V)) k v m :
  set_all ((k, v) :: l) m = set_all l (JsMap.set k v m).
Proof. reflexivity. Qed.

Lemma set_all_other (l : list (string * V)) k m :
  ~ In k (map fst l) -> JsMap.get k (set_all l m) = JsMap.get k m.
Proof.
  revert m. induction l as [|[k0 v0] l IH]; intros m Hk; [reflexivity|].
  cbn in Hk. rewrite set_all_cons, IH by tauto.
  apply get_set_ne. tauto.
Qed.

Lemma set_all_entry (l : list (string * V)) k v m :
  NoDup (map fst l) -> In (k, v) l ->
  JsMap.get k (set_all l m) = Some v.
Proof.
  revert m. induction l as [|[k0 v0] l IH]; intros m Hnd Hin; [destruct Hin|].
  cbn in Hnd. apply NoDup_cons in Hnd as [Hk0 Hl]. rewrite set_all_cons.
  destruct Hin as [Heq | Hin].
  - injection Heq as -> ->.
    rewrite set_all_other by (now rewrite <- list_elem_of_In).
    apply get_set_eq.
  - apply IH; assumption.
Qed.

Lemma set_all_keeps (l : list (string * V)) k m :
  is_Some (JsMap.get k m) -> is_Some (JsMap.get k (set_all l m)).
Proof.
  revert m. induction l as [|[k0 v0] l IH]; intros m Hk; [exact Hk|].
  rewrite set_all_cons. apply IH.
  apply get_is_Some_keys, in_keys_set. right. now apply get_is_Some_keys.
Qed.

Lemma NoDup_keys_set_all (l : list (string * V)) m :
  NoDup (map fst m) -> NoDup (map fst (set_all l m)).
Proof.
  revert m. induction l as [|[k0 v0] l IH]; intros m Hm; [exact Hm|].
  rewrite set_all_cons. apply IH, NoDup_keys_set, Hm.
Qed.
End JsMapMore.

(** Unfolds the handlers down to binds, assignments and writes. *)
Ltac open_handlers :=
  unfold handle, keydown, keyup, startMovement, stopMovement, onopen, onclose,
    onerror, joinGame, handleServerMessage, handleJoinGameResponse,
    handlePlayersMoved, handlePlayerJoined, handlePlayerLeft, Object_entries,
    drawWorld, worldSource, drawAvatars, drawAvatar.

Lemma updateViewport_stores (s : GameClient) :
  players (updateViewport s) = players s /\
  avatars (updateViewport s) = avatars s.
Proof.
  pose proof (updateViewport_frame s) as F. cbv zeta in F. tauto.
Qed.

(** ** The stores through the event loop *)

Lemma stores_wf_updateViewport (s : GameClient) :
  stores_wf s -> stores_wf (updateViewport s).
Proof.
  unfold stores_wf. destruct (updateViewport_stores s) as [-> ->]. tauto.
Qed.

Lemma stores_wf_handle (e : event) : keeps stores_wf any_effect (handle e).
Proof.
  destruct e; open_handlers;
    keeps_handlers
      ltac:(first
        [ exact I
        | exact stores_wf_updateViewport
        | intros ? [? ?]; split; cbn;
          first [ assumption
                | apply NoDup_keys_set; assumption
                | apply NoDup_keys_delete; assumption ] ]).
Qed.

(** X7.  In every state the client reaches from [init], whatever the
    events, the player store holds each id once and the avatar store
    holds each name once. *)
Theorem stores_stay_well_formed (w h : Q) (evs : list event) :
  stores_wf (after (init w h) evs).
Proof.
  apply (after_keeps stores_wf any_effect).
  - apply List.Forall_forall. intros e _. apply stores_wf_handle.
  - split; constructor.
Qed.

Lemma known_avatar_handle (n : string) (e : event) :
  keeps (fun s => is_Some (JsMap.get n (avatars s))) any_effect (handle e).
Proof.
  destruct e; open_handlers;
    keeps_handlers
      ltac:(first
        [ exact I
        | intros s0 ?; rewrite (proj2 (updateViewport_stores s0)); assumption
        | intros ? ?; cbn;
          first [ assumption
                | apply get_is_Some_keys, in_keys_set; right;
                  apply get_is_Some_keys; assumption ] ]).
Qed.

(** X19.  No event removes an avatar definition: a name that is in the
    avatar store is still in it after any list of events. *)
Theorem avatars_never_removed
    (s : GameClient) (n : string) (evs : list event) :
  is_Some (JsMap.get n (avatars s)) ->
  is_Some (JsMap.get n (avatars (after s evs))).
Proof.
  intros Hn.
  apply (after_keeps (fun s => is_Some (JsMap.get n (avatars s))) any_effect).
  - apply List.Forall_forall. intros e _. apply known_avatar_handle.
  - exact Hn.
Qed.

Lemma avatars_never_removed_witness :
  is_Some (JsMap.get "knight" (avatars joined)) /\
  is_Some (JsMap.get "knight"
             (avatars (after joined
                         [WsMessage leftB; WsClose; WsMessage joinedE]))).
Proof.
  assert (H : is_Some (JsMap.get "knight" (avatars joined)))
    by (eexists; reflexivity).
  split; [exact H|].
  exact (avatars_never_removed joined "knight"
           [WsMessage leftB; WsClose; WsMessage joinedE] H).
Defined.

Lemma get_set_keeps {V} (k k' : string) (v : V) (m : JsMap.t V) :
  is_Some (JsMap.get k' m) -> is_Some (JsMap.get k' (JsMap.set k v m)).
Proof.
  intros H. apply get_is_Some_keys, in_keys_set. right.
  now apply get_is_Some_keys.
Qed.

Lemma known_player_handle (pid : string) (e : event) :
  ~ departure_of pid e ->
  keeps (fun s => is_Some (JsMap.get pid (players s))) any_effect (handle e).
Proof.
  intros Hstay.
  assert (Hdraw : keeps (fun s => is_Some (JsMap.get pid (players s)))
                    any_effect drawWorld).
  { open_handlers.
    keeps_handlers
      ltac:(first
        [ exact I
        | intros s0 ?; rewrite (proj1 (updateViewport_stores s0)); assumption ]). }
  destruct e as [k | k | | m | | | w h |]; cbn [handle].
  1-3, 5-8:
    unfold keydown, keyup, startMovement, stopMovement, onopen, onclose,
      onerror, joinGame;
    keeps_handlers ltac:(first [ exact I | intros ? ?; cbn; assumption ]).
  unfold handleServerMessage.
  destruct (String.eqb (action m) "join_game");
    [|destruct (String.eqb (action m) "players_moved");
      [|destruct (String.eqb (action m) "player_joined");
        [|destruct (String.eqb (action m) "player_left") eqn:Hleft]]].
  - unfold handleJoinGameResponse, Object_entries.
    keeps_handlers
      ltac:(first [ exact I
                  | intros ? ?; cbn; first [assumption | now apply get_set_keeps] ]).
  - unfold handlePlayersMoved, Object_entries.
    keeps_handlers
      ltac:(first [ exact I
                  | intros ? ?; cbn; first [assumption | now apply get_set_keeps] ]).
  - unfold handlePlayerJoined.
    keeps_handlers
      ltac:(first [ exact I
                  | intros ? ?; cbn; first [assumption | now apply get_set_keeps] ]).
  - apply String.eqb_eq in Hleft. unfold handlePlayerLeft.
    destruct (playerId m) as [gone|] eqn:Hgone; [|apply keeps_ret].
    apply keeps_assign. intros s0 Hs0. cbn.
    rewrite get_delete_other; [exact Hs0|].
    intros ->. apply Hstay. cbn. auto.
  - apply keeps_ret.
Qed.

(** X20.  A player is removed from the store only by a [player_left]
    message that names it: a known id is still known after any list of
    events that contains no such message. *)
Theorem players_removed_only_by_departure
    (s : GameClient) (pid : string) (evs : list event) :
  is_Some (JsMap.get pid (players s)) ->
  List.Forall (fun e => ~ departure_of pid e) evs ->
  is_Some (JsMap.get pid (players (after s evs))).
Proof.
  intros Hpid Hevs.
  apply (after_keeps (fun s => is_Some (JsMap.get pid (players s))) any_effect).
  - eapply List.Forall_impl; [|exact Hevs].
    intros e He. now apply known_player_handle.
  - exact Hpid.
Qed.

(** X20, on the scenario: A survives B's departure, a batch of moves
    and a closed socket. *)
Lemma players_removed_only_by_departure_witness :
  is_Some (JsMap.get "A" (players joined)) /\
  is_Some (JsMap.get "A"
             (players (after joined
                         [WsMessage leftB; WsMessage movedE; WsClose]))).
Proof.
  assert (H : is_Some (JsMap.get "A" (players joined)))
    by (eexists; reflexivity).
  split; [exact H|].
  apply (players_removed_only_by_departure joined "A"
           [WsMessage leftB; WsMessage movedE; WsClose] H).
  constructor; [cbn; intros [_ Hname]; discriminate Hname|].
  constructor; [cbn; intros [Hact _]; discriminate Hact|].
  constructor; [cbn; tauto | constructor].
Defined.

(** ** The four message kinds, one by one *)

Lemma set_players_same (s : GameClient) : set_players (players s) s = s.
Proof. destruct s; reflexivity. Qed.

Lemma set_avatars_same (s : GameClient) : set_avatars (avatars s) s = s.
Proof. destruct s; reflexivity. Qed.

(** X6.  A [player_left] message for [pid] is processed without
    throwing and without drawing; afterwards [pid] is not in the player
    store, every other id has the record it had, and the avatar store,
    the local id and the cached local player are as before, also when
    [pid] is the local id.  When [pid] was not in the store the client
    is left exactly as it was. *)
Theorem player_left_removes (s : GameClient) (m : message) (pid : string) :
  action m = "player_left" ->
  playerId m = Some pid ->
  NoDup (map fst (players s)) ->
  let r := handleServerMessage m s in
  r = Ok tt (set_players (JsMap.delete pid (players s)) s) [] /\
  JsMap.get pid (players (final r)) = None /\
  (forall other, other <> pid ->
     JsMap.get other (players (final r)) = JsMap.get other (players s)) /\
  avatars (final r) = avatars s /\
  myPlayerId (final r) = myPlayerId s /\
  myPlayer (final r) = myPlayer s /\
  (JsMap.get pid (players s) = None -> r = Ok tt s []).
Proof.
  intros Hact Hpid Hnd. cbv zeta.
  rewrite (handleServerMessage_player_left m Hact), handlePlayerLeft_run, Hpid.
  cbn [final]. repeat split.
  - cbn. now apply get_delete_eq.
  - intros other Hne. cbn. apply get_delete_other. congruence.
  - intros Habsent. rewrite (delete_absent _ _ Habsent).
    now rewrite set_players_same.
Qed.

(** X6, on the scenario: B leaves; the local player A leaves too and is
    still the cached local player. *)
Lemma player_left_removes_witness :
  (JsMap.get "B" (players (final (handleServerMessage leftB joined))) = None /\
   JsMap.get "A" (players (final (handleServerMessage leftB joined)))
     = Some playerA) /\
  (JsMap.get "A" (players (final (handleServerMessage leftA joined))) = None /\
   myPlayer (final (handleServerMessage leftA joined)) = Some playerA).
Proof.
  assert (Hnd : NoDup (map fst (players joined))).
  { cbn. apply NoDup_cons. split; [|apply NoDup_singleton].
    intros H. apply list_elem_of_In in H. destruct H as [H | []].
    discriminate H. }
  split.
  - pose proof (player_left_removes joined leftB "B" eq_refl eq_refl Hnd) as H.
    cbv zeta in H. destruct H as (_ & Hgone & Hother & _).
    split; [exact Hgone|]. rewrite Hother by discriminate. reflexivity.
  - pose proof (player_left_removes joined leftA "A" eq_refl eq_refl Hnd) as H.
    cbv zeta in H. destruct H as (_ & Hgone & _ & _ & _ & Hme & _).
    split; [exact Hgone | exact Hme].
Defined.

(** X8.  A player with a new id who is announced by [player_joined] and
    then removed by [player_left] leaves the player store exactly as
    it was before the two messages, order included; the avatar
    definition that came with the announcement stays. *)
Theorem join_then_leave_restores_players
    (s : GameClient) (mj ml : message) (p : player) (a : avatarDef) :
  action mj = "player_joined" ->
  msg_player mj = Some p -> msg_avatar mj = Some a ->
  action ml = "player_left" -> playerId ml = Some (id p) ->
  JsMap.get (id p) (players s) = None ->
  let s' := after s [WsMessage mj; WsMessage ml] in
  players s' = players s /\ JsMap.get (name a) (avatars s') = Some a.
Proof.
  intros Hj Hp Ha Hl Hid Hnew. cbv zeta.
  unfold after, dispatch. cbn [fold_left fst handle].
  rewrite (handleServerMessage_player_joined mj Hj), handlePlayerJoined_run.
  rewrite Hp, Ha. cbv zeta. cbn [final].
  rewrite (handleServerMessage_player_left ml Hl), handlePlayerLeft_run, Hid.
  cbn. split; [now apply delete_set_fresh | apply get_set_eq].
Qed.

Lemma join_then_leave_restores_players_witness :
  JsMap.get "E" (players joined) = None /\
  players (after joined [WsMessage joinedE; WsMessage leftE]) = players joined /\
  JsMap.get "knight"
    (avatars (after joined [WsMessage joinedE; WsMessage leftE])) = Some knight.
Proof.
  split; [reflexivity|].
  exact (join_then_leave_restores_players joined joinedE leftE playerE knight
           eq_refl eq_refl eq_refl eq_refl eq_refl eq_refl).
Defined.

Lemma upserted_dims (s : GameClient) (entry : string * player) :
  let s' := upserted s entry in
  canvas_width s' = canvas_width s /\ canvas_height s' = canvas_height s /\
  worldWidth s' = worldWidth s /\ worldHeight s' = worldHeight s.
Proof.
  cbv zeta. unfold upserted. cbn.
  destruct (bool_decide _); cbn; repeat split; reflexivity.
Qed.

Lemma fold_upserted_dims (ps : list (string * player)) (s : GameClient) :
  let s' := fold_left upserted ps s in
  canvas_width s' = canvas_width s /\ canvas_height s' = canvas_height s /\
  worldWidth s' = worldWidth s /\ worldHeight s' = worldHeight s.
Proof.
  cbv zeta. revert s. induction ps as [|e ps IH]; intros s; cbn [fold_left].
  - repeat split; reflexivity.
  - destruct (IH (upserted s e)) as (-> & -> & -> & ->).
    apply upserted_dims.
Qed.

(** X3.  A [players_moved] message changes only the players it lists:
    an id that is not among its entries keeps its record (or stays
    absent), the avatar store and the local id are untouched, and when
    that id is the local one the cached local player is untouched
    too. *)
Theorem players_moved_keeps_unlisted
    (s : GameClient) (m : message) (ps : list (string * player))
    (pid : string) :
  action m = "players_moved" ->
  msg_players m = Some ps ->
  ~ In pid (map fst ps) ->
  let s' := final (handleServerMessage m s) in
  JsMap.get pid (players s') = JsMap.get pid (players s) /\
  avatars s' = avatars s /\
  myPlayerId s' = myPlayerId s /\
  (myPlayerId s = Some pid -> myPlayer s' = myPlayer s).
Proof.
  intros Hact Hps Hpid. cbv zeta.
  rewrite (handleServerMessage_players_moved m Hact).
  destruct (handlePlayersMoved_run m ps s Hps) as (out & ->). cbn [final].
  destruct (fold_upserted_other ps s pid Hpid) as [Hget Hme].
  destruct (fold_upserted_frame ps s) as (_ & Hid & Hav & _).
  cbv zeta. destruct (worldImage _); [|tauto].
  pose proof (updateViewport_frame (fold_left upserted ps s)) as F.
  cbv zeta in F. destruct F as (_ & _ & _ & _ & _ & -> & -> & -> & -> & _).
  tauto.
Qed.

Lemma players_moved_keeps_unlisted_witness :
  ~ In "B" (map fst [("E", playerE)]) /\
  JsMap.get "B" (players (final (handleServerMessage movedE joined)))
    = JsMap.get "B" (players joined) /\
  avatars (final (handleServerMessage movedE joined)) = avatars joined /\
  myPlayerId (final (handleServerMessage movedE joined)) = myPlayerId joined /\
  (myPlayerId joined = Some "B" ->
   myPlayer (final (handleServerMessage movedE joined)) = myPlayer joined).
Proof.
  assert (H : ~ In "B" (map fst [("E", playerE)]))
    by (intros [H | []]; discriminate H).
  split; [exact H|].
  exact (players_moved_keeps_unlisted joined movedE [("E", playerE)] "B"
           eq_refl eq_refl H).
Defined.

Section Follow.
Local Open Scope Q_scope.

(** X4.  When a [players_moved] message lists the local id, the record
    it carries becomes the cached local player and, the world image
    being there, the camera is re-centred on it and clamped in the same
    turn. *)
Theorem players_moved_camera_follows
    (s : GameClient) (m : message) (ps : list (string * player))
    (pid : string) (p : player) :
  action m = "players_moved" ->
  msg_players m = Some ps ->
  NoDup (map fst ps) ->
  In (pid, p) ps ->
  myPlayerId s = Some pid ->
  worldImage s = true ->
  let s' := final (handleServerMessage m s) in
  myPlayer s' = Some p /\
  viewportX s' =
    Qmax 0 (Qmin (x p - canvas_width s / 2) (worldWidth s - canvas_width s)) /\
  viewportY s' =
    Qmax 0 (Qmin (y p - canvas_height s / 2)
                 (worldHeight s - canvas_height s)).
Proof.
  intros Hact Hps Hnd Hin Hid Himg. cbv zeta.
  rewrite (handleServerMessage_players_moved m Hact).
  destruct (handlePlayersMoved_run m ps s Hps) as (out & ->). cbn [final].
  destruct (fold_upserted_entry ps s pid p Hnd Hin) as [_ Hme].
  specialize (Hme Hid).
  destruct (fold_upserted_frame ps s) as (Hi & _).
  destruct (fold_upserted_dims ps s) as (Hw & Hh & HW & HH).
  cbv zeta. rewrite Hi, Himg.
  unfold updateViewport. rewrite Hme, Hw, Hh, HW, HH. cbn.
  split; [exact Hme | split; reflexivity].
Qed.

Lemma players_moved_camera_follows_witness :
  (myPlayerId joined = Some "A" /\ worldImage joined = true) /\
  myPlayer (final (handleServerMessage movedA' joined)) = Some playerA' /\
  viewportX (final (handleServerMessage movedA' joined)) =
    Qmax 0 (Qmin (x playerA' - canvas_width joined / 2)
                 (worldWidth joined - canvas_width joined)) /\
  viewportY (final (handleServerMessage movedA' joined)) =
    Qmax 0 (Qmin (y playerA' - canvas_height joined / 2)
                 (worldHeight joined - canvas_height joined)).
Proof.
  split; [split; reflexivity|].
  apply (players_moved_camera_follows joined movedA' [("A", playerA')] "A");
    try reflexivity.
  - apply NoDup_singleton.
  - left. reflexivity.
Defined.

End Follow.

(** ** The join result *)

Lemma forEach_set_avatars (avs : list (string * avatarDef)) (s : GameClient) :
  forEach avs
    (fun '(avatarName, avatarData) =>
       assign (fun s =>
         set_avatars (JsMap.set avatarName avatarData (avatars s)) s)) s =
  Ok tt (set_avatars (set_all avs (avatars s)) s) [].
Proof.
  revert s. induction avs as [|[n a] avs IH]; intros s; cbn [forEach].
  - cbn. now rewrite set_avatars_same.
  - erewrite bind_Ok by reflexivity. rewrite IH. reflexivity.
Qed.

Lemma handleJoinGameResponse_run
    (m : message) (ps : list (string * player))
    (avs : list (string * avatarDef)) (s : GameClient) :
  msg_players m = Some ps -> msg_avatars m = Some avs ->
  exists out,
    handleJoinGameResponse m s =
      Ok tt
        (let s1 :=
           set_avatars (set_all avs (avatars s))
             (fold_left upserted ps (set_myPlayerId (playerId m) s)) in
         if worldImage s1 then updateViewport s1 else s1) out.
Proof.
  intros Hps Havs. unfold handleJoinGameResponse, Object_entries.
  rewrite Hps, Havs. cbn [field].
  destruct (drawWorld_total
              (set_avatars (set_all avs (avatars s))
                 (fold_left upserted ps (set_myPlayerId (playerId m) s))))
    as (out & E).
  exists out.
  erewrite bind_Ok by reflexivity. cbn [app].
  erewrite bind_Ok by reflexivity. cbn [app].
  erewrite bind_Ok by apply forEach_upsertEntry. cbn [app].
  erewrite bind_Ok by reflexivity. cbn [app].
  erewrite bind_Ok by apply forEach_set_avatars. cbn [app].
  rewrite (proj1 (proj2 (proj2
             (fold_upserted_frame ps (set_myPlayerId (playerId m) s))))).
  cbn [avatars set_myPlayerId]. now rewrite E.
Qed.

(** X1.  A successful join result that carries a [players] object and
    an [avatars] object is processed without throwing.  Afterwards the
    local id is the [playerId] of the message, every listed player and
    every listed avatar is in its store with the record carried, the
    cached local player is the listed record of the local id, and ids
    the message does not list keep what the store had for them: the
    message is merged into the stores, it does not replace them. *)
Theorem join_result_loads_stores
    (s : GameClient) (m : message) (ps : list (string * player))
    (avs : list (string * avatarDef)) :
  action m = "join_game" -> success m = true ->
  msg_players m = Some ps -> msg_avatars m = Some avs ->
  NoDup (map fst ps) -> NoDup (map fst avs) ->
  exists s' out,
    handleServerMessage m s = Ok tt s' out /\
    myPlayerId s' = playerId m /\
    (forall pid p, In (pid, p) ps -> JsMap.get pid (players s') = Some p) /\
    (forall n a, In (n, a) avs -> JsMap.get n (avatars s') = Some a) /\
    (forall pid p, playerId m = Some pid -> In (pid, p) ps ->
                   myPlayer s' = Some p) /\
    (forall pid, ~ In pid (map fst ps) ->
                 JsMap.get pid (players s') = JsMap.get pid (players s)) /\
    (forall n, ~ In n (map fst avs) ->
               JsMap.get n (avatars s') = JsMap.get n (avatars s)).
Proof.
  intros Hact Hok Hps Havs Hndp Hnda.
  destruct (handleJoinGameResponse_run m ps avs s Hps Havs) as (out & E).
  eexists _, out. split.
  { unfold handleServerMessage. rewrite Hact, Hok. exact E. }
  cbv zeta. set (s0 := set_myPlayerId (playerId m) s).
  set (s1 := set_avatars (set_all avs (avatars s)) (fold_left upserted ps s0)).
  assert (Hsame :
    let s' := if worldImage s1 then updateViewport s1 else s1 in
    myPlayerId s' = myPlayerId s1 /\ myPlayer s' = myPlayer s1 /\
    players s' = players s1 /\ avatars s' = avatars s1).
  { cbv zeta. destruct (worldImage s1); [|tauto].
    pose proof (updateViewport_frame s1) as F. cbv zeta in F. tauto. }
  cbv zeta in Hsame. destruct Hsame as (-> & -> & -> & ->).
  subst s1. cbn.
  destruct (fold_upserted_frame ps s0) as (_ & Hid & _).
  split; [exact Hid|]. split; [|split; [|split; [|split]]].
  - intros pid p Hin. apply (fold_upserted_entry ps s0 pid p Hndp Hin).
  - intros n a Hin. now apply set_all_entry.
  - intros pid p Hme Hin.
    apply (fold_upserted_entry ps s0 pid p Hndp Hin). exact Hme.
  - intros pid Hpid. apply (fold_upserted_other ps s0 pid Hpid).
  - intros n Hn. now apply set_all_other.
Qed.

(** X1, on the scenario: the join result on a fresh client. *)
Lemma join_result_loads_stores_witness :
  exists s' out,
    handleServerMessage joinResult (set_connected true (init 800 600))
      = Ok tt s' out /\
    myPlayerId s' = Some "A" /\
    JsMap.get "B" (players s') = Some playerB /\
    JsMap.get "knight" (avatars s') = Some knight /\
    myPlayer s' = Some playerA.
Proof.
  assert (Hps : NoDup (map fst [("A", playerA); ("B", playerB)])).
  { cbn. apply NoDup_cons. split; [|apply NoDup_singleton].
    intros H. apply list_elem_of_In in H. destruct H as [H | []].
    discriminate H. }
  destruct (join_result_loads_stores (set_connected true (init 800 600))
              joinResult [("A", playerA); ("B", playerB)] [("knight", knight)]
              eq_refl eq_refl eq_refl eq_refl Hps (NoDup_singleton _))
    as (s' & out & E & Hid & Hp & Ha & Hme & _).
  exists s', out. split; [exact E|]. split; [exact Hid|].
  split; [apply Hp; right; left; reflexivity|].
  split; [apply Ha; left; reflexivity|].
  apply (Hme "A"); [reflexivity | left; reflexivity].
Defined.

(** X2.  A message that is neither a successful join result nor one of
    the three other kinds is dropped: the handler returns normally, the
    client is exactly as before and nothing is drawn or sent. *)
Theorem other_messages_ignored (s : GameClient) (m : message) :
  (action m = "join_game" -> success m = false) ->
  action m <> "players_moved" ->
  action m <> "player_joined" ->
  action m <> "player_left" ->
  handleServerMessage m s = Ok tt s [].
Proof.
  intros Hjoin Hmoved Hjoined Hleft. unfold handleServerMessage.
  destruct (String.eqb (action m) "join_game") eqn:E.
  { apply String.eqb_eq in E. now rewrite (Hjoin E). }
  apply String.eqb_neq in Hmoved, Hjoined, Hleft.
  now rewrite Hmoved, Hjoined, Hleft.
Qed.

Lemma other_messages_ignored_witness :
  let rejected :=
    {| action := "join_game"; success := false; playerId := None;
       msg_players := None; msg_avatars := None;
       msg_player := None; msg_avatar := None |} in
  handleServerMessage rejected joined = Ok tt joined [].
Proof.
  cbv zeta. apply other_messages_ignored; [reflexivity | | |]; discriminate.
Defined.

(** X5.  A [player_joined] message that carries a player but no avatar
    throws after the player has been stored: the player is in the
    store, the avatar store is unchanged, nothing is drawn, and the
    loop goes on; while that player's avatar name stays unknown the
    avatar pass draws nothing for it. *)
Theorem player_joined_without_avatar
    (s : GameClient) (m : message) (p : player) :
  action m = "player_joined" ->
  msg_player m = Some p -> msg_avatar m = None ->
  JsMap.get (avatar p) (avatars s) = None ->
  let s' := fst (dispatch s (WsMessage m)) in
  (exists e, handleServerMessage m s = Throw e s' []) /\
  JsMap.get (id p) (players s') = Some p /\
  avatars s' = avatars s /\
  drawAvatar p s' = Ok tt s' [].
Proof.
  intros Hact Hp Ha Hunknown. cbv zeta. unfold dispatch. cbn [fst handle].
  rewrite (handleServerMessage_player_joined m Hact), handlePlayerJoined_run.
  rewrite Hp, Ha. cbv zeta. cbn [final].
  split; [eexists; reflexivity|].
  split; [cbn; apply get_set_eq|]. split; [reflexivity|].
  unfold drawAvatar. run_M. cbn [avatars set_players].
  destruct (negb (truthy (avatar p))); [reflexivity|].
  now rewrite Hunknown.
Qed.

Lemma player_joined_without_avatar_witness :
  let m :=
    {| action := "player_joined"; success := false; playerId := None;
       msg_players := None; msg_avatars := None;
       msg_player := Some playerC; msg_avatar := None |} in
  JsMap.get (avatar playerC) (avatars joined) = None /\
  JsMap.get "C" (players (fst (dispatch joined (WsMessage m)))) = Some playerC /\
  drawAvatar playerC (fst (dispatch joined (WsMessage m)))
    = Ok tt (fst (dispatch joined (WsMessage m))) [].
Proof.
  cbv zeta. split; [reflexivity|].
  pose proof (player_joined_without_avatar joined
                {| action := "player_joined"; success := false;
                   playerId := None;
                   msg_players := None; msg_avatars := None;
                   msg_player := Some playerC; msg_avatar := None |}
                playerC eq_refl eq_refl eq_refl eq_refl) as H.
  cbv zeta in H. destruct H as (_ & Hget & _ & Hdraw).
  split; [exact Hget | exact Hdraw].
Defined.

(** ** Keys, one event at a time *)

Lemma set_keysPressed_same (s : GameClient) :
  set_keysPressed (keysPressed s) s = s.
Proof. destruct s; reflexivity. Qed.

Lemma keydown_new (key : string) (v : tableValue) (s : GameClient) :
  movementKeys_at key = Some v -> key ∉ keysPressed s ->
  keydown key s =
    Ok tt (set_keysPressed ({[key]} ∪ keysPressed s) s)
      (if connected s then [Send (Move v)] else []).
Proof.
  intros Hv Hnew. unfold keydown, startMovement. run_M. rewrite Hv.
  rewrite bool_decide_eq_false_2 by exact Hnew. cbn.
  destruct (connected s); reflexivity.
Qed.

Lemma keydown_held (key : string) (s : GameClient) :
  key ∈ keysPressed s -> keydown key s = Ok tt s [].
Proof.
  intros Hheld. unfold keydown. run_M.
  destruct (movementKeys_at key); [|reflexivity].
  now rewrite bool_decide_eq_true_2 by exact Hheld.
Qed.

Lemma keydown_unanswered (key : string) (s : GameClient) :
  movementKeys_at key = None -> keydown key s = Ok tt s [].
Proof. intros Hv. unfold keydown. run_M. now rewrite Hv. Qed.

Lemma keyup_run (key : string) (v : tableValue) (s : GameClient) :
  movementKeys_at key = Some v ->
  keyup key s =
    Ok tt (set_keysPressed (keysPressed s ∖ {[key]}) s)
      (if connected s
       then if (size (keysPressed s ∖ {[key]}) =? 0)%nat
            then [Send Stop] else []
       else []).
Proof.
  intros Hv. unfold keyup, stopMovement. run_M. rewrite Hv. cbn.
  destruct (connected s); [|reflexivity].
  destruct (size (keysPressed s ∖ {[key]}) =? 0)%nat; reflexivity.
Qed.

Lemma keyup_unanswered (key : string) (s : GameClient) :
  movementKeys_at key = None -> keyup key s = Ok tt s [].
Proof. intros Hv. unfold keyup. now rewrite Hv. Qed.

Lemma run_repeat_held (key : string) (s : GameClient) (n : nat) :
  key ∈ keysPressed s ->
  run s (repeat (KeyDown key) n) = repeat (s, []) n.
Proof.
  intros Hheld. induction n as [|n IH]; [reflexivity|].
  cbn [repeat]. rewrite run_cons. unfold dispatch. cbn [handle].
  rewrite (keydown_held key s Hheld). cbn [final output fst].
  now rewrite IH.
Qed.

(** X9.  Holding a movement key down sends one [move]: on a connected
    client, the first keydown of a key that was not held sends the
    [move] of its direction, and each of the repeated keydowns that
    follow sends nothing and changes nothing. *)
Theorem held_key_sends_one_move
    (s : GameClient) (key d : string) (n : nat) :
  movementKeys key = Some d ->
  key ∉ keysPressed s ->
  connected s = true ->
  let s1 := set_keysPressed ({[key]} ∪ keysPressed s) s in
  run s (repeat (KeyDown key) (S n)) =
    (s1, [Send (Move (Direction d))]) :: repeat (s1, []) n.
Proof.
  intros Hd Hnew Hconn. cbv zeta. cbn [repeat]. rewrite run_cons.
  unfold dispatch. cbn [handle].
  rewrite (keydown_new key _ s (movementKeys_at_own key d Hd) Hnew), Hconn.
  cbn [final output fst].
  rewrite run_repeat_held; [reflexivity|]. cbn. set_solver.
Qed.

Lemma held_key_sends_one_move_witness :
  (("ArrowUp" ∉ keysPressed joined) /\ connected joined = true) /\
  map snd (run joined (repeat (KeyDown "ArrowUp") 4)) =
    [[Send (Move (Direction "up"))]; []; []; []].
Proof.
  assert (Hnew : "ArrowUp" ∉ keysPressed joined) by (cbn; set_solver).
  split; [split; [exact Hnew | reflexivity]|].
  rewrite (held_key_sends_one_move joined "ArrowUp" "up" 3 eq_refl Hnew eq_refl).
  reflexivity.
Defined.

(** X10.  Pressing a movement key that was not held and releasing it
    again brings the client back to exactly the state it was in.  On a
    connected client the press sends the [move], and the release sends
    [stop] precisely when no other key is held; a client that is not
    connected sends nothing in either turn. *)
Theorem press_release_round_trip (s : GameClient) (key d : string) :
  movementKeys key = Some d ->
  key ∉ keysPressed s ->
  after s [KeyDown key; KeyUp key] = s /\
  map snd (run s [KeyDown key; KeyUp key]) =
    if connected s
    then [ [Send (Move (Direction d))];
           if (size (keysPressed s) =? 0)%nat then [Send Stop] else [] ]
    else [ []; [] ].
Proof.
  intros Hd Hnew.
  assert (Hback : ({[key]} ∪ keysPressed s) ∖ {[key]} = keysPressed s).
  { apply set_eq. intros k.
    rewrite elem_of_difference, elem_of_union, elem_of_singleton.
    split; [tauto|]. intros Hk. split; [tauto|]. intros ->. contradiction. }
  unfold after. cbn [fold_left run map]. unfold dispatch. cbn [handle fst snd].
  rewrite (keydown_new key _ s (movementKeys_at_own key d Hd) Hnew).
  cbn [final output].
  rewrite (keyup_run key _ _ (movementKeys_at_own key d Hd)).
  cbn [final output].
  cbn [keysPressed set_keysPressed connected]. rewrite Hback. split.
  - transitivity (set_keysPressed (keysPressed s) s);
      [reflexivity | apply set_keysPressed_same].
  - destruct (connected s); reflexivity.
Qed.

Lemma press_release_round_trip_witness :
  ("ArrowLeft" ∉ keysPressed joined) /\
  after joined [KeyDown "ArrowLeft"; KeyUp "ArrowLeft"] = joined /\
  map snd (run joined [KeyDown "ArrowLeft"; KeyUp "ArrowLeft"]) =
    [[Send (Move (Direction "left"))]; [Send Stop]].
Proof.
  assert (Hnew : "ArrowLeft" ∉ keysPressed joined) by (cbn; set_solver).
  split; [exact Hnew|].
  exact (press_release_round_trip joined "ArrowLeft" "left" eq_refl Hnew).
Defined.

(** X21.  A movement key pressed while the client is not connected is
    recorded as held and its [move] is not sent; once the socket opens,
    the repeated keydowns of that key are dropped as repeats, so the
    [move] is not sent then either. *)
Theorem key_pressed_offline_never_moves
    (s : GameClient) (key d : string) (n : nat) :
  movementKeys key = Some d ->
  key ∉ keysPressed s ->
  connected s = false ->
  map snd (run s (KeyDown key :: WsOpen :: repeat (KeyDown key) n)) =
    [] :: [Send (JoinGame "jasleen")] :: repeat [] n.
Proof.
  intros Hd Hnew Hoff. rewrite !run_cons. unfold dispatch.
  cbn [handle fst snd map].
  rewrite (keydown_new key _ s (movementKeys_at_own key d Hd) Hnew), Hoff.
  cbn [final output].
  unfold onopen, joinGame. run_M. cbn.
  rewrite run_repeat_held by (cbn; set_solver).
  f_equal. f_equal. induction n as [|n IH]; [reflexivity|].
  cbn. now rewrite IH.
Qed.

Lemma key_pressed_offline_never_moves_witness :
  (("ArrowDown" ∉ keysPressed (init 800 600)) /\
   connected (init 800 600) = false) /\
  map snd (run (init 800 600)
             [KeyDown "ArrowDown"; WsOpen;
              KeyDown "ArrowDown"; KeyDown "ArrowDown"]) =
    [[]; [Send (JoinGame "jasleen")]; []; []].
Proof.
  assert (Hnew : "ArrowDown" ∉ keysPressed (init 800 600))
    by (cbn; set_solver).
  split; [split; [exact Hnew | reflexivity]|].
  exact (key_pressed_offline_never_moves (init 800 600) "ArrowDown" "down" 2
           eq_refl Hnew eq_refl).
Defined.

(** ** Keys and intents through the event loop *)

Lemma movement_key_cases (key : string) :
  is_Some (movementKeys key) ->
  key = "ArrowUp" \/ key = "ArrowDown" \/ key = "ArrowLeft" \/
  key = "ArrowRight".
Proof.
  unfold movementKeys.
  destruct (String.eqb key "ArrowUp") eqn:E1;
    [apply String.eqb_eq in E1; tauto|].
  destruct (String.eqb key "ArrowDown") eqn:E2;
    [apply String.eqb_eq in E2; tauto|].
  destruct (String.eqb key "ArrowLeft") eqn:E3;
    [apply String.eqb_eq in E3; tauto|].
  destruct (String.eqb key "ArrowRight") eqn:E4;
    [apply String.eqb_eq in E4; tauto|].
  intros [? ?]. discriminate.
Qed.

Lemma inherited_In (key : string) :
  inherited key = true <-> In key Object_prototype.
Proof.
  unfold inherited. rewrite existsb_exists. split.
  - intros (k & Hin & Heq). apply String.eqb_eq in Heq. now subst k.
  - intros Hin. exists key. split; [exact Hin | apply String.eqb_refl].
Qed.

(** The lookup answers for the four own keys and for the inherited
    names, and for nothing else. *)
Lemma movementKeys_at_cases (key : string) :
  is_Some (movementKeys_at key) <->
  is_Some (movementKeys key) \/ In key Object_prototype.
Proof.
  unfold movementKeys_at. rewrite <- inherited_In.
  destruct (movementKeys key) as [d|]; [split; eauto|].
  destruct (inherited key); split.
  - auto.
  - eauto.
  - intros [? ?]. discriminate.
  - intros [[? ?] | ?]; discriminate.
Qed.

(** A property of the held keys is kept by a turn when the key that
    turn may add has it. *)
Lemma held_handle (Pk : string -> Prop) (e : event) :
  (forall key, e = KeyDown key -> is_Some (movementKeys_at key) -> Pk key) ->
  keeps (fun s => forall k, k ∈ keysPressed s -> Pk k) any_effect (handle e).
Proof.
  intros Hadd.
  assert (Hany : forall out : list effect, List.Forall any_effect out).
  { intros out. apply List.Forall_forall. intros ? _. exact I. }
  intros s Hs. split; [|apply Hany].
  destruct e as [key | key | | m | | | w h |].
  1:{ cbn [handle]. destruct (movementKeys_at key) as [v|] eqn:Hv.
      - destruct (decide (key ∈ keysPressed s)) as [Hheld | Hnew].
        + now rewrite (keydown_held key s Hheld).
        + rewrite (keydown_new key v s Hv Hnew). cbn. intros k Hk.
          apply elem_of_union in Hk as [Hk | Hk]; [|auto].
          apply elem_of_singleton in Hk. subst k.
          apply Hadd; [reflexivity | rewrite Hv; eauto].
      - now rewrite (keydown_unanswered key s Hv). }
  1:{ cbn [handle]. intros k Hk. apply Hs.
      destruct (movementKeys_at key) as [v|] eqn:Hv.
      - rewrite (keyup_run key v s Hv) in Hk. cbn in Hk.
        now apply elem_of_difference in Hk as [Hk _].
      - now rewrite (keyup_unanswered key s Hv) in Hk. }
  all: match goal with
       | |- forall k, k ∈ keysPressed (final (handle ?ev ?st)) -> _ =>
           let Hq := fresh "Hq" in
           assert (Hq : quiet (handle ev))
             by (apply quiet_handle; discriminate);
           rewrite (proj1 (Hq st)); exact Hs
       end.
Qed.

(** X11.  In every state the client reaches from [init], a held key is
    one the table answers for: one of the four arrow codes, or a name
    the table object inherits from [Object.prototype].  When no key
    event carries such an inherited name, only arrow codes are held,
    so at most four keys. *)
Theorem held_keys_answer_the_table (w h : Q) (evs : list event) :
  let held := keysPressed (after (init w h) evs) in
  (forall k, k ∈ held ->
     (k = "ArrowUp" \/ k = "ArrowDown" \/ k = "ArrowLeft" \/ k = "ArrowRight")
     \/ In k Object_prototype) /\
  (List.Forall own_code evs ->
   (forall k, k ∈ held ->
      k = "ArrowUp" \/ k = "ArrowDown" \/ k = "ArrowLeft" \/ k = "ArrowRight") /\
   size held <= 4).
Proof.
  cbv zeta.
  assert (Hempty : forall Pk : string -> Prop,
            forall k, k ∈ keysPressed (init w h) -> Pk k).
  { intros Pk k Hk. cbn in Hk. now apply not_elem_of_empty in Hk. }
  split.
  - intros k Hk.
    assert (Hat : is_Some (movementKeys_at k)).
    { revert k Hk.
      apply (after_keeps
               (fun s => forall k, k ∈ keysPressed s ->
                                   is_Some (movementKeys_at k)) any_effect).
      - apply List.Forall_forall. intros e _. apply held_handle. auto.
      - apply Hempty. }
    apply movementKeys_at_cases in Hat as [Hown | Hinh]; [left | right; exact Hinh].
    now apply movement_key_cases.
  - intros Hown.
    assert (Hinv : forall k, k ∈ keysPressed (after (init w h) evs) ->
                             is_Some (movementKeys k)).
    { apply (after_keeps
               (fun s => forall k, k ∈ keysPressed s -> is_Some (movementKeys k))
               any_effect).
      - eapply List.Forall_impl; [|exact Hown].
        intros e He. apply held_handle. intros key -> Hat.
        apply movementKeys_at_cases in Hat as [Hat | Hat]; [exact Hat|].
        apply inherited_In in Hat. unfold own_code in He. congruence.
      - apply Hempty. }
    split; [intros k Hk; apply movement_key_cases, Hinv, Hk|].
    assert (Hsub : keysPressed (after (init w h) evs) ⊆
                   ({["ArrowUp"]} ∪ {["ArrowDown"]} ∪ {["ArrowLeft"]}
                    ∪ {["ArrowRight"]} : gset string)).
    { intros k Hk. apply Hinv, movement_key_cases in Hk.
      rewrite !elem_of_union, !elem_of_singleton. tauto. }
    apply subseteq_size in Hsub. etransitivity; [exact Hsub|].
    vm_compute. lia.
Qed.

(** X11, on a run where a repeat, a letter key and an inherited name
    arrive: the arrow and the inherited name are held, the letter is
    not; without the inherited name only the arrow is. *)
Lemma held_keys_answer_the_table_witness :
  keysPressed (after (init 800 600)
                 [KeyDown "ArrowUp"; KeyDown "KeyA"; KeyDown "toString"])
    = {["ArrowUp"]} ∪ {["toString"]} /\
  List.Forall own_code [KeyDown "ArrowUp"; KeyDown "KeyA"; KeyDown "ArrowUp"] /\
  (forall k,
     k ∈ keysPressed (after (init 800 600)
                        [KeyDown "ArrowUp"; KeyDown "KeyA"; KeyDown "ArrowUp"]) ->
     k = "ArrowUp" \/ k = "ArrowDown" \/ k = "ArrowLeft" \/ k = "ArrowRight") /\
  size (keysPressed (after (init 800 600)
                       [KeyDown "ArrowUp"; KeyDown "KeyA"; KeyDown "ArrowUp"]))
    <= 4.
Proof.
  assert (Hown : List.Forall own_code
                   [KeyDown "ArrowUp"; KeyDown "KeyA"; KeyDown "ArrowUp"])
    by (repeat constructor).
  split; [vm_compute; reflexivity|]. split; [exact Hown|].
  exact (proj2 (held_keys_answer_the_table 800 600
                  [KeyDown "ArrowUp"; KeyDown "KeyA"; KeyDown "ArrowUp"]) Hown).
Defined.

(** The table is a plain object: the code [toString] is answered by an
    inherited function, so on a connected client its keydown is held
    and sends a [move] with that function as direction, and its keyup
    sends the [stop]. *)
Example inherited_name_moves :
  map snd (run joined [KeyDown "toString"; KeyUp "toString"]) =
    [[Send (Move (Inherited "toString"))]; [Send Stop]] /\
  map snd (run joined [KeyDown "KeyA"; KeyUp "KeyA"]) = [[]; []].
Proof. split; vm_compute; reflexivity. Qed.

Lemma no_send_handle (e : event) :
  (forall k, e <> KeyDown k) -> (forall k, e <> KeyUp k) -> e <> WsOpen ->
  keeps (fun _ => True) not_send (handle e).
Proof.
  intros Hdown Hup Hopen.
  destruct e as [k | k | | m | | | w h |];
    [ now destruct (Hdown k) | now destruct (Hup k) | now destruct Hopen
    | | | | | ];
    open_handlers; keeps_handlers ltac:(first [exact I | intros; exact I]).
Qed.

(** X12.  Where every intent comes from.  A join request is sent only
    in the turn the socket opens, with the fixed user name.  A [move]
    is sent only by the keydown of a key the table answers for (an
    arrow code or an inherited name) that was not held, on a connected
    client, and carries the value the table gave for that key.  A
    [stop] is sent only by the keyup of a key the table answers for,
    on a connected client, and leaves no key held.  In each case the
    client counts as connected when the turn is over. *)
Theorem intent_provenance (e : event) (s : GameClient) (i : intent) :
  In (Send i) (output (handle e s)) ->
  connected (final (handle e s)) = true /\
  match i with
  | JoinGame user => e = WsOpen /\ user = "jasleen"
  | Move v =>
      exists key, e = KeyDown key /\ movementKeys_at key = Some v /\
                  (key ∉ keysPressed s) /\ connected s = true
  | Stop =>
      exists key, e = KeyUp key /\ is_Some (movementKeys_at key) /\
                  connected s = true /\
                  keysPressed (final (handle e s)) = ∅
  end.
Proof.
  destruct e as [key | key | | m | | | w h |].
  1:{ cbn [handle]. destruct (movementKeys_at key) as [v|] eqn:Hv.
      - destruct (decide (key ∈ keysPressed s)) as [Hheld | Hnew].
        + rewrite (keydown_held key s Hheld). intros [].
        + rewrite (keydown_new key v s Hv Hnew).
          destruct (connected s) eqn:Hc; [|intros []].
          intros [Hi | []]. injection Hi as <-. cbn.
          split; [exact Hc|]. exists key. auto.
      - rewrite (keydown_unanswered key s Hv). intros []. }
  1:{ cbn [handle]. destruct (movementKeys_at key) as [v|] eqn:Hv.
      - rewrite (keyup_run key v s Hv).
        destruct (connected s) eqn:Hc; [|intros []].
        destruct (size (keysPressed s ∖ {[key]}) =? 0)%nat eqn:Hsz;
          [|intros []].
        intros [Hi | []]. injection Hi as <-. cbn.
        split; [exact Hc|]. exists key.
        split; [reflexivity|]. split; [rewrite Hv; eauto|].
        split; [reflexivity|].
        apply Nat.eqb_eq in Hsz. apply leibniz_equiv.
        now apply size_empty_iff.
      - rewrite (keyup_unanswered key s Hv). intros []. }
  1:{ cbn [handle]. unfold onopen, joinGame. run_M. cbn.
      intros [Hi | []]. injection Hi as <-. auto. }
  all: intros Hin; exfalso;
    match type of Hin with
    | In _ (output (handle ?ev ?st)) =>
        let Hq := fresh "Hq" in
        assert (Hq : keeps (fun _ => True) not_send (handle ev))
          by (apply no_send_handle; discriminate);
        destruct (Hq st I) as [_ Hq'];
        rewrite List.Forall_forall in Hq'; exact (Hq' _ Hin)
    end.
Qed.

(** X12, twice: the [stop] that follows an arrow key, and the [move]
    that the inherited name [constructor] causes. *)
Lemma intent_provenance_witness :
  (In (Send Stop)
      (output (handle (KeyUp "ArrowUp")
                 (after joined [KeyDown "ArrowUp"]))) /\
   connected (final (handle (KeyUp "ArrowUp")
                       (after joined [KeyDown "ArrowUp"]))) = true /\
   exists key,
     KeyUp "ArrowUp" = KeyUp key /\ is_Some (movementKeys_at key) /\
     connected (after joined [KeyDown "ArrowUp"]) = true /\
     keysPressed (final (handle (KeyUp "ArrowUp")
                           (after joined [KeyDown "ArrowUp"]))) = ∅) /\
  (In (Send (Move (Inherited "constructor")))
      (output (handle (KeyDown "constructor") joined)) /\
   connected (final (handle (KeyDown "constructor") joined)) = true /\
   exists key,
     KeyDown "constructor" = KeyDown key /\
     movementKeys_at key = Some (Inherited "constructor") /\
     (key ∉ keysPressed joined) /\ connected joined = true).
Proof.
  assert (Hstop : In (Send Stop)
                     (output (handle (KeyUp "ArrowUp")
                                (after joined [KeyDown "ArrowUp"]))))
    by (vm_compute; left; reflexivity).
  assert (Hmove : In (Send (Move (Inherited "constructor")))
                     (output (handle (KeyDown "constructor") joined)))
    by (vm_compute; left; reflexivity).
  split.
  - split; [exact Hstop|].
    exact (intent_provenance (KeyUp "ArrowUp")
             (after joined [KeyDown "ArrowUp"]) Stop Hstop).
  - split; [exact Hmove|].
    exact (intent_provenance (KeyDown "constructor") joined
             (Move (Inherited "constructor")) Hmove).
Defined.

(** ** The camera and the redraw *)

Section Camera.
Local Open Scope Q_scope.

(** Case analysis on every [Qmax] and [Qmin] in sight, halves named. *)
Ltac camera_cases :=
  repeat match goal with
  | |- context [?a / 2] =>
      let h := fresh "half" in
      let Hh := fresh "Hhalf" in
      assert (Hh : a / 2 == a * (1 # 2)) by reflexivity;
      set (h := a / 2) in *; clearbody h
  end;
  repeat match goal with
  | |- context [Qmax ?a ?b] =>
      let m := fresh "m" in
      pose proof (Q.max_spec a b); set (m := Qmax a b) in *; clearbody m
  | |- context [Qmin ?a ?b] =>
      let m := fresh "m" in
      pose proof (Q.min_spec a b); set (m := Qmin a b) in *; clearbody m
  | H : context [Qmax ?a ?b] |- _ =>
      let m := fresh "m" in
      pose proof (Q.max_spec a b); set (m := Qmax a b) in *; clearbody m
  | H : context [Qmin ?a ?b] |- _ =>
      let m := fresh "m" in
      pose proof (Q.min_spec a b); set (m := Qmin a b) in *; clearbody m
  end.

(** X14.  On each axis where the local player is at least half a canvas
    away from both borders of the world, [updateViewport] puts the
    player exactly in the middle of the canvas. *)
Theorem updateViewport_centres (s : GameClient) (me : player) :
  myPlayer s = Some me ->
  let s' := updateViewport s in
  (canvas_width s / 2 <= x me <= worldWidth s - canvas_width s / 2 ->
   x me - viewportX s' == canvas_width s / 2) /\
  (canvas_height s / 2 <= y me <= worldHeight s - canvas_height s / 2 ->
   y me - viewportY s' == canvas_height s / 2).
Proof.
  intros Hme. cbv zeta. unfold updateViewport. rewrite Hme. cbn.
  split; intros Hmid; camera_cases; lra.
Qed.

(** X14, on a player in the middle of the world. *)
Lemma updateViewport_centres_witness :
  let s := set_myPlayer (Some playerA') joined in
  (canvas_width s / 2 <= x playerA' <= worldWidth s - canvas_width s / 2 /\
   canvas_height s / 2 <= y playerA' <= worldHeight s - canvas_height s / 2) /\
  x playerA' - viewportX (updateViewport s) == canvas_width s / 2 /\
  y playerA' - viewportY (updateViewport s) == canvas_height s / 2.
Proof.
  cbv zeta.
  assert (Hx : canvas_width (set_myPlayer (Some playerA') joined) / 2
               <= x playerA'
               <= worldWidth (set_myPlayer (Some playerA') joined)
                  - canvas_width (set_myPlayer (Some playerA') joined) / 2)
    by (split; vm_compute; discriminate).
  assert (Hy : canvas_height (set_myPlayer (Some playerA') joined) / 2
               <= y playerA'
               <= worldHeight (set_myPlayer (Some playerA') joined)
                  - canvas_height (set_myPlayer (Some playerA') joined) / 2)
    by (split; vm_compute; discriminate).
  split; [split; assumption|].
  pose proof (updateViewport_centres (set_myPlayer (Some playerA') joined)
                playerA' eq_refl) as H.
  cbv zeta in H. destruct H as [H1 H2].
  split; [exact (H1 Hx) | exact (H2 Hy)].
Defined.

(** X15.  A local player that stands inside the world is on the canvas
    after [updateViewport]: its screen position lies between 0 and the
    canvas size on both axes, so the avatar pass never culls it. *)
Theorem local_player_stays_on_canvas (s : GameClient) (me : player) :
  myPlayer s = Some me ->
  0 <= canvas_width s -> 0 <= canvas_height s -> 0 <= avatarSize s ->
  0 <= x me <= worldWidth s -> 0 <= y me <= worldHeight s ->
  let s' := updateViewport s in
  0 <= x me - viewportX s' <= canvas_width s /\
  0 <= y me - viewportY s' <= canvas_height s /\
  offscreen s' (x me - viewportX s') (y me - viewportY s') = false.
Proof.
  intros Hme Hw Hh Ha Hx Hy. cbv zeta.
  assert (Hsx : 0 <= x me - viewportX (updateViewport s) <= canvas_width s).
  { unfold updateViewport. rewrite Hme. cbn. camera_cases. lra. }
  assert (Hsy : 0 <= y me - viewportY (updateViewport s) <= canvas_height s).
  { unfold updateViewport. rewrite Hme. cbn. camera_cases. lra. }
  split; [exact Hsx|]. split; [exact Hsy|].
  unfold offscreen.
  assert (Hsize : avatarSize (updateViewport s) = avatarSize s /\
                  canvas_width (updateViewport s) = canvas_width s /\
                  canvas_height (updateViewport s) = canvas_height s).
  { unfold updateViewport. rewrite Hme. cbn. tauto. }
  destruct Hsize as (-> & -> & ->).
  repeat match goal with
         | |- context [Qlt_le_dec ?a ?b] =>
             destruct (Qlt_le_dec a b); [exfalso; lra|]
         end.
  reflexivity.
Qed.

Lemma local_player_stays_on_canvas_witness :
  (0 <= x playerA <= worldWidth joined /\ 0 <= y playerA <= worldHeight joined) /\
  0 <= x playerA - viewportX (updateViewport joined) <= canvas_width joined /\
  0 <= y playerA - viewportY (updateViewport joined) <= canvas_height joined /\
  offscreen (updateViewport joined)
    (x playerA - viewportX (updateViewport joined))
    (y playerA - viewportY (updateViewport joined)) = false.
Proof.
  assert (Hx : 0 <= x playerA <= worldWidth joined)
    by (split; vm_compute; discriminate).
  assert (Hy : 0 <= y playerA <= worldHeight joined)
    by (split; vm_compute; discriminate).
  split; [split; assumption|].
  apply (local_player_stays_on_canvas joined playerA eq_refl);
    try assumption; vm_compute; discriminate.
Defined.

End Camera.

(** ** The redraw *)

Lemma updateViewport_idempotent (s : GameClient) :
  updateViewport (updateViewport s) = updateViewport s.
Proof.
  unfold updateViewport at 2 3. destruct (myPlayer s) as [me|] eqn:Hme.
  - unfold updateViewport. cbn. rewrite Hme. reflexivity.
  - unfold updateViewport. now rewrite Hme.
Qed.

Lemma forEach_drawAvatar_output (l : list (string * player)) (s : GameClient) :
  forEach l (fun entry => drawAvatar (snd entry)) s =
    Ok tt s (flat_map (fun entry => output (drawAvatar (snd entry) s)) l).
Proof.
  induction l as [|[k p] l IH]; cbn [forEach flat_map]; [reflexivity|].
  destruct (drawAvatar_total p s) as (o1 & E1 & _).
  cbn [snd]. erewrite bind_Ok by exact E1. rewrite IH, E1. reflexivity.
Qed.

(** X17.  The avatar pass leaves the client as it is and asks for at
    most one image per player: what it writes is what [drawAvatar]
    writes for each player of the store, one after the other in the
    order of the store. *)
Theorem drawAvatars_in_store_order (s : GameClient) :
  drawAvatars s =
    Ok tt s
      (flat_map (fun entry => output (drawAvatar (snd entry) s)) (players s)) /\
  (forall p, length (output (drawAvatar p s)) <= 1) /\
  length (output (drawAvatars s)) <= JsMap.size (players s).
Proof.
  assert (Hrun : drawAvatars s =
            Ok tt s (flat_map (fun entry => output (drawAvatar (snd entry) s))
                       (players s))).
  { unfold drawAvatars. erewrite bind_Ok by reflexivity.
    now rewrite forEach_drawAvatar_output. }
  assert (Hone : forall p, length (output (drawAvatar p s)) <= 1).
  { intros p. unfold drawAvatar. run_M.
    destruct (negb (truthy (avatar p))); [cbn; auto|].
    destruct (JsMap.get (avatar p) (avatars s)) as [av|]; [|cbn; auto].
    destruct (offscreen _ _ _); [cbn; auto|].
    destruct (JsMap.get _ (frames av)) as [fs|]; [|cbn; auto].
    destruct (index fs _) as [src|]; [|cbn; auto].
    destruct (negb (truthy src)); cbn; auto. }
  split; [exact Hrun|]. split; [exact Hone|].
  rewrite Hrun. cbn [output]. unfold JsMap.size. clear Hrun.
  generalize (players s) as l.
  induction l as [|[k p] l IH]; cbn [flat_map length snd]; [lia|].
  rewrite length_app. specialize (Hone p). lia.
Qed.

Lemma drawWorld_run (s : GameClient) :
  worldImage s = true ->
  drawWorld s =
    Ok tt (updateViewport s)
      (Canvas (ClearRect 0 0 (canvas_width s) (canvas_height s))
       :: Canvas
            (let '(startX, startY, endX, endY) :=
               worldSource (updateViewport s) in
             DrawWorldImage startX startY (endX - startX) (endY - startY)
                            0 0 (endX - startX) (endY - startY))
       :: output (drawAvatars (updateViewport s))).
Proof.
  intros Himg.
  destruct (drawAvatars_total (updateViewport s)) as (avs & E & _).
  unfold drawWorld. run_M. rewrite Himg. cbn [negb].
  unfold worldSource. rewrite E. reflexivity.
Qed.

(** X16.  A redraw right after a redraw changes nothing: the client is
    left as the first redraw left it, and the second redraw issues the
    very same calls as the first. *)
Theorem drawWorld_idempotent (s : GameClient) :
  let once := drawWorld s in
  let twice := drawWorld (final once) in
  final twice = final once /\ output twice = output once.
Proof.
  cbv zeta. destruct (worldImage s) eqn:Himg.
  - rewrite (drawWorld_run s Himg). cbn [final output].
    assert (Himg' : worldImage (updateViewport s) = true).
    { unfold updateViewport. destruct (myPlayer s); cbn; exact Himg. }
    rewrite (drawWorld_run _ Himg'). cbn [final output].
    rewrite updateViewport_idempotent.
    pose proof (updateViewport_frame s) as F. cbv zeta in F.
    destruct F as (-> & -> & _). split; reflexivity.
  - rewrite (drawWorld_no_image s Himg). cbn [final output].
    rewrite (drawWorld_no_image s Himg). split; reflexivity.
Qed.

Section WorldDraws.
Local Open Scope Q_scope.

Lemma camera_ok_drawWorld :
  keeps camera_ok (world_draw_within 2048 2048) drawWorld.
Proof.
  intros s (Hw & Hh & HW & HH & Hcam).
  destruct (worldImage s) eqn:Himg.
  2:{ rewrite (drawWorld_no_image s Himg). cbn.
      split; [repeat split; tauto | constructor]. }
  destruct (drawWorld_redraw s Himg) as (avs & Hload & ->).
  cbn [final output].
  pose proof (updateViewport_frame s) as F. cbv zeta in F.
  destruct F as (Fw & Fh & FW & FH & _ & _ & Fme & _).
  assert (Hvx : 0 <= viewportX (updateViewport s) /\
                viewportX (updateViewport s)
                  <= Qmax 0 (worldWidth s - canvas_width s)).
  { unfold updateViewport. destruct (myPlayer s) as [me|] eqn:Hme; cbn.
    - apply clamp_range.
    - destruct (Hcam eq_refl) as [H0 _]. rewrite H0.
      split; [lra | apply Q.le_max_l]. }
  assert (Hvy : 0 <= viewportY (updateViewport s) /\
                viewportY (updateViewport s)
                  <= Qmax 0 (worldHeight s - canvas_height s)).
  { unfold updateViewport. destruct (myPlayer s) as [me|] eqn:Hme; cbn.
    - apply clamp_range.
    - destruct (Hcam eq_refl) as [_ H0]. rewrite H0.
      split; [lra | apply Q.le_max_l]. }
  split.
  - unfold camera_ok. rewrite Fw, Fh, FW, FH, Fme.
    repeat split; try assumption.
    + unfold updateViewport. destruct (myPlayer s); [discriminate|].
      now apply Hcam.
    + unfold updateViewport. destruct (myPlayer s); [discriminate|].
      now apply Hcam.
  - constructor; [exact I|]. constructor.
    + cbn. rewrite Fw, Fh, FW, FH.
      pose proof (source_axis (worldWidth s) (canvas_width s)
                    (viewportX (updateViewport s))) as Ax.
      pose proof (source_axis (worldHeight s) (canvas_height s)
                    (viewportY (updateViewport s))) as Ay.
      cbv zeta in Ax, Ay. rewrite HW in *. rewrite HH in *.
      assert (H2048 : 0 <= 2048) by lra.
      specialize (Ax Hw H2048 (proj1 Hvx) (proj2 Hvx)).
      specialize (Ay Hh H2048 (proj1 Hvy) (proj2 Hvy)).
      tauto.
    + eapply List.Forall_impl; [|exact Hload].
      intros [c | src onload | i]; cbn; tauto.
Qed.

Lemma camera_ok_handle (e : event) :
  sized e -> keeps camera_ok (world_draw_within 2048 2048) (handle e).
Proof.
  intros Hsized. pose proof camera_ok_drawWorld as Hdraw.
  destruct e as [k | k | | m | | | w h |];
    unfold handle, keydown, keyup, startMovement, stopMovement, onopen,
      onclose, onerror, joinGame, handleServerMessage, handleJoinGameResponse,
      handlePlayersMoved, handlePlayerJoined, handlePlayerLeft, Object_entries;
    keeps_handlers
      ltac:(first
        [ exact I
        | intros ? (? & ? & ? & ? & ?); repeat split; cbn;
          first [ assumption | tauto | discriminate
                | apply Hsized ] ]).
Qed.

(** X18.  From [init] on a window of non-negative size, through any
    events whose resizes are to non-negative sizes, every world
    [drawImage] the client ever issues takes its source rectangle
    inside the 2048 x 2048 world image, with non-negative width and
    height. *)
Theorem world_draws_stay_in_world (w h : Q) (evs : list event) :
  0 <= w -> 0 <= h ->
  List.Forall sized evs ->
  List.Forall
    (fun turn => List.Forall (world_draw_within 2048 2048) (snd turn))
    (run (init w h) evs).
Proof.
  intros Hw Hh Hevs.
  eapply List.Forall_impl;
    [| apply (run_keeps camera_ok (world_draw_within 2048 2048))].
  - intros turn [_ Hout]. exact Hout.
  - eapply List.Forall_impl; [|exact Hevs]. intros e. apply camera_ok_handle.
  - unfold camera_ok. cbn. repeat split; (assumption || lra).
Qed.

(** X18, on a run with a join, a move to the far corner and a resize
    to a window larger than the world. *)
Lemma world_draws_stay_in_world_witness :
  let far :=
    {| action := "players_moved"; success := false; playerId := None;
       msg_players :=
         Some [("A", {| id := "A"; username := "alice"; x := 2040; y := 2040;
                        facing := "south"; animationFrame := 0;
                        avatar := "knight" |})];
       msg_avatars := None; msg_player := None; msg_avatar := None |} in
  let evs := [WsOpen; WsMessage joinResult; WsMessage far; Resize 3000 500] in
  List.Forall sized evs /\
  List.Forall
    (fun turn => List.Forall (world_draw_within 2048 2048) (snd turn))
    (run (init 800 600) evs).
Proof.
  cbv zeta.
  assert (Hs : List.Forall sized
                 [WsOpen; WsMessage joinResult;
                  WsMessage
                    {| action := "players_moved"; success := false;
                       playerId := None;
                       msg_players :=
                         Some [("A", {| id := "A"; username := "alice";
                                        x := 2040; y := 2040;
                                        facing := "south"; animationFrame := 0;
                                        avatar := "knight" |})];
                       msg_avatars := None; msg_player := None;
                       msg_avatar := None |};
                  Resize 3000 500]).
  { repeat constructor; vm_compute; discriminate. }
  split; [exact Hs|].
  apply world_draws_stay_in_world; [vm_compute; discriminate .. | exact Hs].
Defined.

End WorldDraws.

(** ** Offline *)

Lemma offline_handle (e : event) :
  e <> WsOpen ->
  keeps (fun s => connected s = false) not_send (handle e).
Proof.
  intros Hopen.
  assert (Hdraw : keeps (fun s => connected s = false) not_send drawWorld).
  { open_handlers.
    keeps_handlers
      ltac:(first
        [ exact I
        | intros s0 Hs0; pose proof (updateViewport_frame s0) as F;
          cbv zeta in F; destruct F as (_ & _ & _ & _ & -> & _); exact Hs0 ]). }
  destruct e as [k | k | | m | | | w h |]; [| |now destruct Hopen| | | | |].
  - intros s Hs. cbn [handle].
    destruct (movementKeys_at k) as [v|] eqn:Hv.
    + destruct (decide (k ∈ keysPressed s)) as [Hheld | Hnew].
      * rewrite (keydown_held k s Hheld). split; [exact Hs | constructor].
      * rewrite (keydown_new k v s Hv Hnew), Hs. split; [exact Hs | constructor].
    + rewrite (keydown_unanswered k s Hv). split; [exact Hs | constructor].
  - intros s Hs. cbn [handle].
    destruct (movementKeys_at k) as [v|] eqn:Hv.
    + rewrite (keyup_run k v s Hv), Hs. split; [exact Hs | constructor].
    + rewrite (keyup_unanswered k s Hv). split; [exact Hs | constructor].
  - unfold handle, handleServerMessage, handleJoinGameResponse,
      handlePlayersMoved, handlePlayerJoined, handlePlayerLeft, Object_entries.
    keeps_handlers ltac:(first [exact I | intros ? ?; cbn; assumption]).
  - unfold handle, onclose.
    keeps_handlers ltac:(first [exact I | intros ? ?; reflexivity]).
  - unfold handle, onerror. keeps_handlers ltac:(exact I).
  - unfold handle.
    keeps_handlers ltac:(first [exact I | intros ? ?; cbn; assumption]).
  - exact Hdraw.
Qed.

(** X13.  A client that is not connected stays so and sends nothing,
    whatever keys are pressed or released and whatever else happens,
    until the socket opens. *)
Theorem offline_sends_nothing (s : GameClient) (evs : list event) :
  connected s = false ->
  List.Forall (fun e => e <> WsOpen) evs ->
  List.Forall
    (fun turn => connected (fst turn) = false /\
                 List.Forall not_send (snd turn))
    (run s evs).
Proof.
  intros Hoff Hevs.
  apply (run_keeps (fun s => connected s = false) not_send).
  - eapply List.Forall_impl; [|exact Hevs]. intros e. apply offline_handle.
  - exact Hoff.
Qed.

(** X13, on the scenario after the socket has closed. *)
Lemma offline_sends_nothing_witness :
  connected (after joined [WsClose]) = false /\
  List.Forall
    (fun turn => connected (fst turn) = false /\
                 List.Forall not_send (snd turn))
    (run (after joined [WsClose])
       [KeyDown "ArrowUp"; KeyUp "ArrowUp"; WsMessage movedE; WsError]).
Proof.
  split; [reflexivity|].
  apply (offline_sends_nothing (after joined [WsClose])); [reflexivity|].
  repeat (constructor; [discriminate|]). constructor.
Defined.
